(** * Ordered multisets of [bst_avl.py]: the unbalanced tree [BST] and the
    balanced tree [AVL]

    The Python classes are embedded as pure functions on immutable trees.
    The source mutates nodes in place, but every node has exactly one owner
    (its parent, or the tree object for the root) and no node is reachable
    along two paths, so an in-place update of a field is the construction of
    a tree that differs in that field.  Python integers are unbounded: they
    are [Z].  A raised exception is the [Raise] branch of [result].  The
    recursive methods are first embedded without the interpreter's bound
    on nested calls, which describes every call that returns; the methods
    of the unbalanced tree, whose recursion is as deep as the tree, are
    embedded a second time under that bound ([_insert_within],
    [_sum_within]). *)

From Stdlib Require Import ZArith List Lia Bool Sorted Permutation Relations.
From Stdlib Require String.
Import String.StringSyntax.
Import ListNotations.
Local Open Scope Z_scope.

(** ** Exceptions *)

(** [ValueError] is what [get_min]/[get_max] raise on an empty tree;
    [AttributeError] is what Python raises when a field of [None] is read
    ([node.left.value], [y.left], ... with the object being [None]);
    [RecursionError] is what a call raises when the interpreter allows no
    further nested call. *)
Inductive exn : Type :=
| ValueError
| AttributeError
| RecursionError.

Inductive result (A : Type) : Type :=
| Ok (a : A)
| Raise (e : exn).
Arguments Ok {A} a.
Arguments Raise {A} e.

Definition bind {A B : Type} (m : result A) (k : A -> result B) : result B :=
  match m with
  | Ok a => k a
  | Raise e => Raise e
  end.

Notation "x <- m ;; k" := (bind m (fun x => k))
  (at level 61, m at next level, right associativity).

(** ** The list view shared by both structures *)

(** An in-order traversal lists the nodes as pairs [(value, count)]. *)
Definition entry : Type := (Z * Z)%type.

Definition keys (es : list entry) : list Z := map fst es.

Definition weighted_sum (es : list entry) : Z :=
  fold_right (fun e acc => fst e * snd e + acc) 0 es.

(** Python's [sum(values)]. *)
Definition py_sum (values : list Z) : Z := fold_right Z.add 0 values.

(** Total of the counts of the entries holding [w]. *)
Definition count_of (w : Z) (es : list entry) : Z :=
  fold_right (fun e acc => (if fst e =? w then snd e else 0) + acc) 0 es.

(** Number of entries holding [w]. *)
Definition nodes_with (w : Z) (es : list entry) : nat :=
  count_occ Z.eq_dec (keys es) w.

(** Reference insertion into a key-sorted list of entries: the abstract
    multiset operation both trees are compared with. *)
Fixpoint ins (v : Z) (es : list entry) : list entry :=
  match es with
  | [] => [(v, 1)]
  | (k, c) :: rest =>
      if v <? k then (v, 1) :: (k, c) :: rest
      else if k <? v then (k, c) :: ins v rest
      else (k, c + 1) :: rest
  end.

Definition ins_all (values : list Z) (es : list entry) : list entry :=
  fold_left (fun acc v => ins v acc) values es.

(** ** BST *)

Module BST.

(** [Optional[BSTNode]]: [Empty] is [None]. *)
Inductive tree : Type :=
| Empty
| BSTNode (value : Z) (left right : tree) (count : Z).

Record BST : Type := mk { root : tree }.

(** [BST.__init__] *)
Definition init : BST := mk Empty.

(** [BST._insert] *)
Fixpoint _insert (node : tree) (value : Z) : tree :=
  match node with
  | Empty => BSTNode value Empty Empty 1
  | BSTNode v l r c =>
      if value <? v then BSTNode v (_insert l value) r c
      else if value >? v then BSTNode v l (_insert r value) c
      else BSTNode v l r (c + 1)
  end.

(** [BST.insert] *)
Definition insert (self : BST) (value : Z) : BST :=
  mk (_insert (root self) value).

(** The loop [for v in values: tree.insert(v)] of the callers. *)
Definition insert_all (self : BST) (values : list Z) : BST :=
  fold_left insert values self.

(** The loop [while node.right is not None: node = node.right] started at
    a node with value [v] and right child [r]; yields the final
    [node.value]. *)
Fixpoint descend_right (v : Z) (r : tree) : Z :=
  match r with
  | Empty => v
  | BSTNode v' _ r' _ => descend_right v' r'
  end.

Fixpoint descend_left (v : Z) (l : tree) : Z :=
  match l with
  | Empty => v
  | BSTNode v' l' _ _ => descend_left v' l'
  end.

(** [BST.get_max] *)
Definition get_max (self : BST) : result Z :=
  match root self with
  | Empty => Raise ValueError
  | BSTNode v _ r _ => Ok (descend_right v r)
  end.

(** [BST.get_min] *)
Definition get_min (self : BST) : result Z :=
  match root self with
  | Empty => Raise ValueError
  | BSTNode v l _ _ => Ok (descend_left v l)
  end.

(** The local function [_sum] of [BST.get_sum]. *)
Fixpoint _sum (node : tree) : Z :=
  match node with
  | Empty => 0
  | BSTNode v l r c => v * c + _sum l + _sum r
  end.

(** [BST.get_sum] *)
Definition get_sum (self : BST) : Z := _sum (root self).

(** *** The recursive methods under the bound on nested calls

    [depth] is the number of further nested calls of Python functions
    the interpreter allows at the place of the call; a call made when it
    is 0 raises [RecursionError] before its body runs, and inside a call
    one less is allowed.  Nothing has been assigned when the exception
    passes through [_insert] and [insert], so the tree is as before. *)






(** *** Observations used by the statements *)



Fixpoint inorder (t : tree) : list entry :=
  match t with
  | Empty => []
  | BSTNode v l r c => inorder l ++ (v, c) :: inorder r
  end.

Definition values (t : tree) : list Z := keys (inorder t).

(** Number of nodes, one per distinct stored value. *)
Fixpoint size (t : tree) : nat :=
  match t with
  | Empty => O
  | BSTNode _ l r _ => S (size l + size r)
  end.

(** Ordering invariant, node by node. *)
Fixpoint ordered (t : tree) : Prop :=
  match t with
  | Empty => True
  | BSTNode v l r _ =>
      Forall (fun x => x < v) (values l) /\
      Forall (fun x => v < x) (values r) /\
      ordered l /\ ordered r
  end.

(** The tree with every [count] reset: nodes, values and links only. *)
Fixpoint shape (t : tree) : tree :=
  match t with
  | Empty => Empty
  | BSTNode v l r _ => BSTNode v (shape l) (shape r) 1
  end.

End BST.

(** ** AVL *)

Module AVL.

(** [Optional[AVLNode]]: [Empty] is [None]. *)
Inductive tree : Type :=
| Empty
| AVLNode (value : Z) (left right : tree) (height : Z) (count : Z).

Record AVL : Type := mk { root : tree }.

(** [AVL.__init__] *)
Definition init : AVL := mk Empty.

(** [AVL._height] *)
Definition _height (node : tree) : Z :=
  match node with
  | Empty => 0
  | AVLNode _ _ _ h _ => h
  end.

(** [AVL._get_balance] *)
Definition _get_balance (node : tree) : Z :=
  match node with
  | Empty => 0
  | AVLNode _ l r _ _ => _height l - _height r
  end.

(** Reading [node.value] where [node] may be [None]. *)
Definition value_of (node : tree) : result Z :=
  match node with
  | Empty => Raise AttributeError
  | AVLNode v _ _ _ _ => Ok v
  end.

(** [AVL._left_rotate] *)
Definition _left_rotate (z : tree) : result tree :=
  match z with
  | Empty => Raise AttributeError
  | AVLNode zv zl y _ zc =>
      match y with
      | Empty => Raise AttributeError
      | AVLNode yv T2 yr _ yc =>
          let z' := AVLNode zv zl T2 (1 + Z.max (_height zl) (_height T2)) zc in
          Ok (AVLNode yv z' yr (1 + Z.max (_height z') (_height yr)) yc)
      end
  end.

(** [AVL._right_rotate] *)
Definition _right_rotate (z : tree) : result tree :=
  match z with
  | Empty => Raise AttributeError
  | AVLNode zv y zr _ zc =>
      match y with
      | Empty => Raise AttributeError
      | AVLNode yv yl T3 _ yc =>
          let z' := AVLNode zv T3 zr (1 + Z.max (_height T3) (_height zr)) zc in
          Ok (AVLNode yv yl z' (1 + Z.max (_height yl) (_height z')) yc)
      end
  end.

(** Python's short-circuit [a and b] where evaluating [b] may raise. *)
Definition and_then (a : bool) (b : result bool) : result bool :=
  if a then b else Ok false.

(** Lines 86-100 of [AVL._insert]: the part run after a recursive call
    has returned, on the node with value [v], children [l] and [r] and
    count [c] (the stale height is overwritten first). *)
Definition rebalance (v : Z) (l r : tree) (c : Z) (value : Z) : result tree :=
  let node := AVLNode v l r (1 + Z.max (_height l) (_height r)) c in
  let balance := _get_balance node in
  ll <- and_then (balance >? 1) (lv <- value_of l ;; Ok (value <? lv)) ;;
  if ll then _right_rotate node else
  rr <- and_then (balance <? -1) (rv <- value_of r ;; Ok (value >? rv)) ;;
  if rr then _left_rotate node else
  lr <- and_then (balance >? 1) (lv <- value_of l ;; Ok (value >? lv)) ;;
  if lr then
    l' <- _left_rotate l ;;
    _right_rotate (AVLNode v l' r (1 + Z.max (_height l) (_height r)) c)
  else
  rl <- and_then (balance <? -1) (rv <- value_of r ;; Ok (value <? rv)) ;;
  if rl then
    r' <- _right_rotate r ;;
    _left_rotate (AVLNode v l r' (1 + Z.max (_height l) (_height r)) c)
  else Ok node.

(** [AVL._insert] *)
Fixpoint _insert (node : tree) (value : Z) : result tree :=
  match node with
  | Empty => Ok (AVLNode value Empty Empty 1 1)
  | AVLNode v l r h c =>
      if value <? v then
        l' <- _insert l value ;; rebalance v l' r c value
      else if value >? v then
        r' <- _insert r value ;; rebalance v l r' c value
      else Ok (AVLNode v l r h (c + 1))
  end.

(** [AVL.insert] *)
Definition insert (self : AVL) (value : Z) : result AVL :=
  t <- _insert (root self) value ;; Ok (mk t).

(** The loop [for v in values: tree.insert(v)] of the callers. *)
Fixpoint insert_all (self : AVL) (values : list Z) : result AVL :=
  match values with
  | [] => Ok self
  | v :: rest => self' <- insert self v ;; insert_all self' rest
  end.

Fixpoint descend_right (v : Z) (r : tree) : Z :=
  match r with
  | Empty => v
  | AVLNode v' _ r' _ _ => descend_right v' r'
  end.

Fixpoint descend_left (v : Z) (l : tree) : Z :=
  match l with
  | Empty => v
  | AVLNode v' l' _ _ _ => descend_left v' l'
  end.

(** [AVL.get_max] *)
Definition get_max (self : AVL) : result Z :=
  match root self with
  | Empty => Raise ValueError
  | AVLNode v _ r _ _ => Ok (descend_right v r)
  end.

(** [AVL.get_min] *)
Definition get_min (self : AVL) : result Z :=
  match root self with
  | Empty => Raise ValueError
  | AVLNode v l _ _ _ => Ok (descend_left v l)
  end.

(** The local function [_sum] of [AVL.get_sum]. *)
Fixpoint _sum (node : tree) : Z :=
  match node with
  | Empty => 0
  | AVLNode v l r _ c => v * c + _sum l + _sum r
  end.

(** [AVL.get_sum] *)
Definition get_sum (self : AVL) : Z := _sum (root self).

(** The local function [check_node] of [AVL.verify_avl_property]. *)
Fixpoint check_node (node : tree) : bool * Z :=
  match node with
  | Empty => (true, 0)
  | AVLNode _ l r _ _ =>
      let '(left_ok, left_height) := check_node l in
      let '(right_ok, right_height) := check_node r in
      let balanced := Z.abs (left_height - right_height) <=? 1 in
      let height := 1 + Z.max left_height right_height in
      (left_ok && right_ok && balanced, height)
  end.

(** [AVL.verify_avl_property] *)
Definition verify_avl_property (self : AVL) : bool :=
  fst (check_node (root self)).

(** *** Observations used by the statements *)

Fixpoint inorder (t : tree) : list entry :=
  match t with
  | Empty => []
  | AVLNode v l r _ c => inorder l ++ (v, c) :: inorder r
  end.

Definition values (t : tree) : list Z := keys (inorder t).

Fixpoint size (t : tree) : nat :=
  match t with
  | Empty => O
  | AVLNode _ l r _ _ => S (size l + size r)
  end.

Fixpoint ordered (t : tree) : Prop :=
  match t with
  | Empty => True
  | AVLNode v l r _ _ =>
      Forall (fun x => x < v) (values l) /\
      Forall (fun x => v < x) (values r) /\
      ordered l /\ ordered r
  end.

(** Height invariant on the stored [height] fields, node by node. *)
Fixpoint heights_ok (t : tree) : Prop :=
  match t with
  | Empty => True
  | AVLNode _ l r h _ =>
      h = 1 + Z.max (_height l) (_height r) /\ heights_ok l /\ heights_ok r
  end.

(** Height and balance invariants together, on the stored heights. *)
Fixpoint avl (t : tree) : Prop :=
  match t with
  | Empty => True
  | AVLNode _ l r h _ =>
      h = 1 + Z.max (_height l) (_height r) /\
      -1 <= _height l - _height r <= 1 /\
      avl l /\ avl r
  end.

(** How a subtree looks when inserting [x] has made it one level higher:
    it is a fresh leaf, or it leans to the side [x] went to. *)
Definition grew (x : Z) (t : tree) : Prop :=
  match t with
  | Empty => False
  | AVLNode v l r h _ =>
      h = 1 \/
      (x < v /\ _height l = _height r + 1) \/
      (v < x /\ _height r = _height l + 1)
  end.

(** The tree with every [count] reset: nodes, values, heights and links. *)
Fixpoint shape (t : tree) : tree :=
  match t with
  | Empty => Empty
  | AVLNode v l r h _ => AVLNode v (shape l) (shape r) h 1
  end.

End AVL.

(** ** Further observations on the list view *)

Definition sorted (es : list entry) : Prop := StronglySorted Z.lt (keys es).

Definition first_key (es : list entry) : option Z :=
  match es with
  | [] => None
  | e :: _ => Some (fst e)
  end.

Fixpoint last_key (es : list entry) : option Z :=
  match es with
  | [] => None
  | e :: rest =>
      match last_key rest with
      | None => Some (fst e)
      | Some k => Some k
      end
  end.

(** What a query returning the optional key [o] reports to the caller. *)
Definition answer (o : option Z) : result Z :=
  match o with
  | Some k => Ok k
  | None => Raise ValueError
  end.

(** [m] is the least (greatest) element of the non-empty list [values]:
    Python's [min(values)] ([max(values)]). *)
Definition is_min (m : Z) (values : list Z) : Prop :=
  In m values /\ Forall (fun x => m <= x) values.

Definition is_max (m : Z) (values : list Z) : Prop :=
  In m values /\ Forall (fun x => x <= m) values.

(** Number of occurrences of [v] in the raw insertion sequence. *)
Definition occurrences (v : Z) (values : list Z) : Z :=
  Z.of_nat (count_occ Z.eq_dec values v).

(** [verify_avl_property] after each insertion of a run, as one boolean;
    a raised exception counts as a failed run. *)
Fixpoint verified_run (self : AVL.AVL) (values : list Z) : bool :=
match values with
| [] => true
| v :: rest =>
    match AVL.insert self v with
    | Ok self' => AVL.verify_avl_property self' && verified_run self' rest
    | Raise _ => false
    end
end.

(** ** The comment hierarchy of [comment_system.py]

    A [Comment] object is reached through references: the same reply can
    be held by several comments, changed after it was added, or added to
    itself.  The objects therefore live in a store indexed by reference,
    and [replies] holds references.  The recursive methods take the number
    of nested calls the interpreter still allows; running out of it is
    Python's [RecursionError]. *)

Module Comments.

Record Comment : Type := mkComment {
  text : String.string;
  author : String.string;
  replies : list nat;
  is_deleted : bool
}.

(** The object each reference denotes. *)
Definition heap : Type := nat -> Comment.

Definition set (h : heap) (self : nat) (c : Comment) : heap :=
  fun r => if Nat.eqb r self then c else h r.

(** An argument passed as [reply]: a [Comment] object or anything else. *)
Inductive value : Type :=
| Ref (r : nat)
| NotAComment.

Inductive outcome (A : Type) : Type :=
| Done (a : A)
| TypeError
| RecursionError.
Arguments Done {A} a.
Arguments TypeError {A}.
Arguments RecursionError {A}.

Local Open Scope string_scope.
Definition deleted_text : String.string := "Цей коментар було видалено.".
Definition empty_string : String.string := String.EmptyString.
Local Close Scope string_scope.

(** [Comment.__init__] run on the fresh object [self]. *)
Definition init (h : heap) (self : nat) (text author : String.string) : heap :=
  set h self (mkComment text author [] false).

(** [Comment.add_reply] *)
Definition add_reply (h : heap) (self : nat) (reply : value) : outcome heap :=
  match reply with
  | NotAComment => TypeError
  | Ref r =>
      let c := h self in
      Done (set h self
              (mkComment (text c) (author c) (replies c ++ [r]) (is_deleted c)))
  end.

(** [Comment.remove_reply] *)
Definition remove_reply (h : heap) (self : nat) : heap :=
  set h self (mkComment deleted_text empty_string (replies (h self)) true).

(** A [for reply in replies] loop whose body updates an accumulator and
    may raise. *)
Fixpoint for_each {S : Type} (body : S -> nat -> outcome S)
  (replies : list nat) (acc : S) : outcome S :=
  match replies with
  | [] => Done acc
  | reply :: rest =>
      match body acc reply with
      | Done acc' => for_each body rest acc'
      | TypeError => TypeError
      | RecursionError => RecursionError
      end
  end.

(** [Comment.get_reply_count] *)
Fixpoint get_reply_count (depth : nat) (h : heap) (self : nat) : outcome Z :=
  match depth with
  | O => RecursionError
  | S d =>
      for_each
        (fun total reply =>
           match get_reply_count d h reply with
           | Done n => Done (total + n)
           | TypeError => TypeError
           | RecursionError => RecursionError
           end)
        (replies (h self))
        (Z.of_nat (length (replies (h self))))
  end.

(** [Comment.find_replies_by_author]; the result lists references. *)
Fixpoint find_replies_by_author (depth : nat) (h : heap) (self : nat)
  (who : String.string) : outcome (list nat) :=
  match depth with
  | O => RecursionError
  | S d =>
      for_each
        (fun found_replies reply =>
           let found_replies' :=
             if String.eqb (author (h reply)) who && negb (is_deleted (h reply))
             then found_replies ++ [reply]
             else found_replies in
           match find_replies_by_author d h reply who with
           | Done more => Done (found_replies' ++ more)
           | TypeError => TypeError
           | RecursionError => RecursionError
           end)
        (replies (h self))
        []
  end.




(** A store in which no comment has been written yet. *)
Definition blank : heap :=
  fun _ => mkComment empty_string empty_string [] false.

Local Open Scope string_scope.
Definition test_text : String.string := "Тестовий коментар".
Definition test_author : String.string := "Тестер".
Definition reply_text : String.string := "Відповідь".
Definition reply_author : String.string := "Інший автор".
Definition nested_text : String.string := "Вкладена відповідь".
Definition nested_author : String.string := "Третій автор".
Local Close Scope string_scope.

(** The steps of [test_comment_system] that change the store, with the
    objects [comment], [reply] and [nested_reply] at the references 0, 1
    and 2. *)
Definition test_comment_system : outcome heap :=
  let h := init blank 0 test_text test_author in
  let h := init h 1 reply_text reply_author in
  match add_reply h 0 (Ref 1) with
  | Done h =>
      let h := remove_reply h 1 in
      let h := init h 2 nested_text nested_author in
      add_reply h 1 (Ref 2)
  | TypeError => TypeError
  | RecursionError => RecursionError
  end.

(** The store [test_comment_system] ends with. *)
Definition test_heap : heap :=
  match test_comment_system with
  | Done h => h
  | TypeError => blank
  | RecursionError => blank
  end.

(** *** Observations used by the statements *)

(** The comment [x] holds [y] as a reply. *)
Definition edge (h : heap) (x y : nat) : Prop := In y (replies (h x)).

(** [y] is a reply of [x], or a reply of a reply, and so on. *)
Definition below (h : heap) (x y : nat) : Prop := clos_trans nat (edge h) x y.

(** The loop of [get_reply_count] over an arbitrary per-reply count. *)
Definition sum_loop (f : nat -> outcome Z) (l : list nat) (a : Z) : outcome Z :=
  for_each (fun total reply =>
              match f reply with
              | Done n => Done (total + n)
              | TypeError => TypeError
              | RecursionError => RecursionError
              end) l a.

End Comments.

(** ** Observations for the further properties *)

(** Sum of the counts of all entries. *)
Definition total_count (es : list entry) : Z :=
  fold_right (fun e acc => snd e + acc) 0 es.

(** Number of nodes on the longest path from the root down. *)
Fixpoint avl_depth (t : AVL.tree) : Z :=
  match t with
  | AVL.Empty => 0
  | AVL.AVLNode _ l r _ _ => 1 + Z.max (avl_depth l) (avl_depth r)
  end.

(** Every node's subtrees differ in depth by at most one; the stored
    [height] fields play no part. *)
Fixpoint depth_balanced (t : AVL.tree) : Prop :=
  match t with
  | AVL.Empty => True
  | AVL.AVLNode _ l r _ _ =>
      Z.abs (avl_depth l - avl_depth r) <= 1 /\
      depth_balanced l /\ depth_balanced r
  end.

(** The tree in which every node has only a right (left) child. *)
Definition right_chain (values : list Z) : BST.tree :=
  fold_right (fun v t => BST.BSTNode v BST.Empty t 1) BST.Empty values.

Definition left_chain (values : list Z) : BST.tree :=
  fold_right (fun v t => BST.BSTNode v t BST.Empty 1) BST.Empty values.


(** What [benchmark_operation] needs of its argument [tree_class]: a
    constructor and the four methods. *)
Record tree_class : Type := {
  tc_tree : Type;
  tc_new : result tc_tree;
  tc_insert : tc_tree -> Z -> result tc_tree;
  tc_get_max : tc_tree -> result Z;
  tc_get_min : tc_tree -> result Z;
  tc_get_sum : tc_tree -> result Z
}.


(** The class [AVL].  Its recursion is as deep as the tree, which stays
    logarithmic in the number of nodes; it is embedded without the
    bound. *)
Definition AVL_class : tree_class := {|
  tc_tree := AVL.AVL;
  tc_new := Ok AVL.init;
  tc_insert := AVL.insert;
  tc_get_max := AVL.get_max;
  tc_get_min := AVL.get_min;
  tc_get_sum := fun tree => Ok (AVL.get_sum tree)
|}.

(** The loop [for value in data: tree.insert(value)]. *)
Fixpoint tc_insert_all (C : tree_class) (tree : tc_tree C) (data : list Z)
  : result (tc_tree C) :=
  match data with
  | [] => Ok tree
  | value :: rest => tree' <- tc_insert C tree value ;; tc_insert_all C tree' rest
  end.

(** [benchmark_operation]: the calls it makes, in order, and the exception
    that may end it.  The three durations it returns are differences of
    clock readings and are left out: a normal return is [Ok tt]. *)
Definition benchmark_operation (C : tree_class) (data : list Z) : result unit :=
  tree <- tc_new C ;;
  tree <- tc_insert_all C tree data ;;
  _ <- tc_get_max C tree ;;
  _ <- tc_get_min C tree ;;
  _ <- tc_get_sum C tree ;;
  Ok tt.

(** ** Facts about sorted lists of entries *)

Section SortedLists.

Lemma ssorted_app_iff (l1 l2 : list Z) (x : Z) :
  StronglySorted Z.lt (l1 ++ x :: l2) <->
  StronglySorted Z.lt l1 /\ StronglySorted Z.lt l2 /\
  Forall (fun y => y < x) l1 /\ Forall (fun y => x < y) l2.
Proof.
  induction l1 as [|a l1 IH]; simpl.
  - split.
    + intros H. inversion H; subst. repeat split; auto; constructor.
    + intros (_ & H2 & _ & H4). constructor; auto.
  - split.
    + intros H. inversion H as [|? ? Hs Hf]; subst.
      apply IH in Hs. destruct Hs as (S1 & S2 & F1 & F2).
      rewrite Forall_app in Hf. destruct Hf as [Fa Fb].
      inversion Fb; subst.
      repeat split; auto; constructor; auto.
    + intros (S1 & S2 & F1 & F2).
      inversion S1; subst. inversion F1; subst.
      constructor.
      * apply IH. repeat split; auto.
      * rewrite Forall_app. split; auto.
        constructor; auto.
        eapply Forall_impl; [|exact F2]. simpl. intros; lia.
Qed.

Lemma keys_app (a b : list entry) : keys (a ++ b) = keys a ++ keys b.
Proof. apply map_app. Qed.

Lemma sorted_app_iff (a b : list entry) (k c : Z) :
  sorted (a ++ (k, c) :: b) <->
  sorted a /\ sorted b /\
  Forall (fun y => y < k) (keys a) /\ Forall (fun y => k < y) (keys b).
Proof. unfold sorted. rewrite keys_app. simpl. apply ssorted_app_iff. Qed.

Lemma ins_app_lt (v k c : Z) (a b : list entry) :
  v < k -> ins v (a ++ (k, c) :: b) = ins v a ++ (k, c) :: b.
Proof.
  intros Hv. induction a as [|[k1 c1] a IH]; simpl.
  - apply Z.ltb_lt in Hv. rewrite Hv. reflexivity.
  - destruct (v <? k1); [reflexivity|].
    destruct (k1 <? v); [|reflexivity].
    rewrite IH. reflexivity.
Qed.

Lemma ins_app_pass (v : Z) (a rest : list entry) :
  Forall (fun y => y < v) (keys a) -> ins v (a ++ rest) = a ++ ins v rest.
Proof.
  induction a as [|[k1 c1] a IH]; simpl; intros H; [reflexivity|].
  inversion H; subst.
  replace (v <? k1) with false by (symmetry; apply Z.ltb_ge; lia).
  replace (k1 <? v) with true by (symmetry; apply Z.ltb_lt; lia).
  rewrite IH by assumption. reflexivity.
Qed.

Lemma ins_app_gt (v k c : Z) (a b : list entry) :
  Forall (fun y => y < k) (keys a) -> k < v ->
  ins v (a ++ (k, c) :: b) = a ++ (k, c) :: ins v b.
Proof.
  intros Ha Hv. rewrite ins_app_pass.
  - simpl.
    replace (v <? k) with false by (symmetry; apply Z.ltb_ge; lia).
    replace (k <? v) with true by (symmetry; apply Z.ltb_lt; lia).
    reflexivity.
  - eapply Forall_impl; [|exact Ha]. simpl. intros; lia.
Qed.

Lemma ins_app_eq (v c : Z) (a b : list entry) :
  Forall (fun y => y < v) (keys a) ->
  ins v (a ++ (v, c) :: b) = a ++ (v, c + 1) :: b.
Proof.
  intros Ha. rewrite ins_app_pass by assumption. simpl.
  rewrite Z.ltb_irrefl. reflexivity.
Qed.

Lemma keys_ins_In (v : Z) (es : list entry) (x : Z) :
  In x (keys (ins v es)) <-> x = v \/ In x (keys es).
Proof.
  unfold keys. induction es as [|[k c] es IH]; simpl.
  - intuition congruence.
  - destruct (v <? k) eqn:E1; simpl; [intuition congruence|].
    destruct (k <? v) eqn:E2; simpl.
    + rewrite IH. intuition congruence.
    + apply Z.ltb_ge in E1, E2. assert (k = v) by lia. intuition congruence.
Qed.

Lemma ins_sorted (v : Z) (es : list entry) :
  sorted es -> sorted (ins v es).
Proof.
  unfold sorted. induction es as [|[k c] es IH]; simpl; intros H.
  - repeat constructor.
  - inversion H as [|? ? Hs Hf]; subst.
    destruct (v <? k) eqn:E1; simpl.
    + apply Z.ltb_lt in E1. constructor; [exact H|].
      constructor; [assumption|].
      eapply Forall_impl; [|exact Hf]. simpl. intros; lia.
    + destruct (k <? v) eqn:E2; simpl.
      * apply Z.ltb_lt in E2. constructor; [auto|].
        apply Forall_forall. intros x Hx.
        apply keys_ins_In in Hx. destruct Hx as [->|Hx]; [assumption|].
        rewrite Forall_forall in Hf. auto.
      * constructor; assumption.
Qed.

Lemma weighted_sum_app (a b : list entry) :
  weighted_sum (a ++ b) = weighted_sum a + weighted_sum b.
Proof. induction a as [|e a IH]; simpl; [reflexivity|]. rewrite IH. lia. Qed.

Lemma weighted_sum_ins (v : Z) (es : list entry) :
  weighted_sum (ins v es) = weighted_sum es + v.
Proof.
  induction es as [|[k c] es IH]; simpl.
  - lia.
  - destruct (v <? k) eqn:E1; simpl; [lia|].
    destruct (k <? v) eqn:E2; simpl.
    + rewrite IH. lia.
    + apply Z.ltb_ge in E1, E2. assert (k = v) by lia. subst. lia.
Qed.

Lemma count_of_ins (w v : Z) (es : list entry) :
  count_of w (ins v es) = count_of w es + (if v =? w then 1 else 0).
Proof.
  induction es as [|[k c] es IH]; simpl.
  - lia.
  - destruct (v <? k) eqn:E1; simpl; [lia|].
    destruct (k <? v) eqn:E2; simpl.
    + rewrite IH. lia.
    + apply Z.ltb_ge in E1, E2. assert (k = v) by lia. subst.
      destruct (v =? w); lia.
Qed.

Lemma keys_ins_present (v : Z) (es : list entry) :
  In v (keys es) -> sorted es -> keys (ins v es) = keys es.
Proof.
  unfold sorted. induction es as [|[k c] es IH]; simpl; intros Hin Hs.
  - contradiction.
  - inversion Hs as [|? ? Hs' Hf]; subst.
    destruct (v <? k) eqn:E1; simpl.
    + apply Z.ltb_lt in E1. destruct Hin as [->|Hin]; [lia|].
      rewrite Forall_forall in Hf. apply Hf in Hin. lia.
    + destruct (k <? v) eqn:E2; simpl; [|reflexivity].
      apply Z.ltb_lt in E2. destruct Hin as [->|Hin]; [lia|].
      rewrite IH; auto.
Qed.

Lemma length_ins_present (v : Z) (es : list entry) :
In v (keys es) -> sorted es -> length (ins v es) = length es.
Proof.
intros Hin Hs. pose proof (keys_ins_present v es Hin Hs) as H.
apply (f_equal (@length Z)) in H. unfold keys in H.
rewrite !length_map in H. exact H.
Qed.

Lemma sorted_NoDup (es : list entry) : sorted es -> NoDup (keys es).
Proof.
  unfold sorted. induction (keys es) as [|k ks IH]; intros H.
  - constructor.
  - inversion H as [|? ? Hs Hf]; subst. constructor; auto.
    intros Hin. rewrite Forall_forall in Hf. apply Hf in Hin. lia.
Qed.

Lemma nodes_with_sorted (w : Z) (es : list entry) :
  sorted es -> In w (keys es) -> nodes_with w es = 1%nat.
Proof.
  intros Hs Hin. unfold nodes_with.
  apply sorted_NoDup in Hs.
  rewrite (NoDup_count_occ Z.eq_dec) in Hs. specialize (Hs w).
  apply (count_occ_In Z.eq_dec) in Hin. lia.
Qed.

Lemma first_key_min (es : list entry) (m : Z) :
  sorted es -> first_key es = Some m ->
  In m (keys es) /\ Forall (fun x => m <= x) (keys es).
Proof.
  unfold sorted. destruct es as [|[k c] es]; simpl; intros Hs H; [discriminate|].
  injection H as ->. inversion Hs as [|? ? _ Hf]; subst.
  split; [auto|]. constructor; [lia|].
  eapply Forall_impl; [|exact Hf]. simpl. intros; lia.
Qed.

Lemma last_key_max (es : list entry) (m : Z) :
  sorted es -> last_key es = Some m ->
  In m (keys es) /\ Forall (fun x => x <= m) (keys es).
Proof.
  unfold sorted. revert m.
  induction es as [|[k c] es IH]; simpl; intros m Hs H; [discriminate|].
  inversion Hs as [|? ? Hs' Hf]; subst.
  destruct (last_key es) as [k'|] eqn:E.
  - injection H as ->. destruct (IH m Hs' eq_refl) as [Hin Hall].
    split; [auto|]. constructor; [|assumption].
    rewrite Forall_forall in Hf. apply Hf in Hin. lia.
  - injection H as ->. destruct es; [|simpl in E; destruct (last_key es); discriminate].
    split; [auto|]. repeat constructor. lia.
Qed.

Lemma first_key_app (a : list entry) (e : entry) (b : list entry) :
  first_key (a ++ e :: b) =
  match first_key a with Some k => Some k | None => Some (fst e) end.
Proof. destruct a; reflexivity. Qed.

Lemma last_key_app (a : list entry) (e : entry) (b : list entry) :
  last_key (a ++ e :: b) =
  match last_key b with Some k => Some k | None => Some (fst e) end.
Proof.
  induction a as [|x a IH]; simpl; [reflexivity|].
  rewrite IH. destruct (last_key b); reflexivity.
Qed.

Lemma first_key_None (es : list entry) : first_key es = None <-> es = [].
Proof. destruct es; simpl; split; congruence. Qed.

Lemma last_key_None (es : list entry) : last_key es = None <-> es = [].
Proof.
  destruct es; simpl; [tauto|]. destruct (last_key es); split; congruence.
Qed.

(** *** Folding [ins] over a whole insertion sequence *)

Lemma ins_all_sorted (values : list Z) (es : list entry) :
  sorted es -> sorted (ins_all values es).
Proof.
  revert es. induction values as [|v vs IH]; simpl; intros es H; [assumption|].
  apply IH, ins_sorted, H.
Qed.

Lemma ins_all_sum (values : list Z) (es : list entry) :
  weighted_sum (ins_all values es) = weighted_sum es + py_sum values.
Proof.
  revert es. induction values as [|v vs IH]; simpl; intros es; [lia|].
  unfold ins_all in IH. rewrite IH, weighted_sum_ins. lia.
Qed.

Lemma ins_all_In (values : list Z) (es : list entry) (x : Z) :
  In x (keys (ins_all values es)) <-> In x values \/ In x (keys es).
Proof.
  revert es. induction values as [|v vs IH]; simpl; intros es; [tauto|].
  unfold ins_all in IH. rewrite IH, keys_ins_In. intuition.
Qed.

Lemma ins_all_count (w : Z) (values : list Z) (es : list entry) :
  count_of w (ins_all values es) =
  count_of w es + Z.of_nat (count_occ Z.eq_dec values w).
Proof.
  revert es. induction values as [|v vs IH]; simpl; intros es; [lia|].
  unfold ins_all in IH. rewrite IH, count_of_ins.
  destruct (Z.eq_dec v w) as [->|Hn].
  - rewrite Z.eqb_refl. lia.
  - apply Z.eqb_neq in Hn. rewrite Hn. lia.
Qed.

Lemma ins_all_nonempty (values : list Z) (es : list entry) :
  values <> [] \/ es <> [] -> ins_all values es <> [].
Proof.
  intros H E.
  assert (forall x, In x values \/ In x (keys es) -> False) as Hno.
  { intros x Hx. apply ins_all_In in Hx. rewrite E in Hx. exact Hx. }
  destruct H as [H|H].
  - destruct values as [|v vs]; [congruence|]. apply (Hno v). simpl; auto.
  - destruct es as [|[k c] es]; [congruence|]. apply (Hno k). simpl; auto.
Qed.

End SortedLists.

(** ** The unbalanced tree refines the list view *)

Section BSTFacts.
Import BST.

Lemma bst_ordered_sorted (t : tree) : ordered t <-> sorted (inorder t).
Proof.
  induction t as [|v l IHl r IHr c]; simpl.
  - split; [intros _; constructor|trivial].
  - rewrite sorted_app_iff, IHl, IHr. unfold values. tauto.
Qed.

Lemma bst_inorder_insert (t : tree) (x : Z) :
  sorted (inorder t) -> inorder (_insert t x) = ins x (inorder t).
Proof.
  induction t as [|v l IHl r IHr c]; simpl; intros Hs; [reflexivity|].
  apply sorted_app_iff in Hs. destruct Hs as (Sl & Sr & Fl & Fr).
  rewrite Z.gtb_ltb.
  destruct (x <? v) eqn:E1.
  - apply Z.ltb_lt in E1. simpl. rewrite IHl by assumption.
    symmetry. apply ins_app_lt. assumption.
  - destruct (v <? x) eqn:E2; simpl.
    + apply Z.ltb_lt in E2. rewrite IHr by assumption.
      symmetry. apply ins_app_gt; assumption.
    + apply Z.ltb_ge in E1, E2. assert (v = x) by lia. subst.
      symmetry. apply ins_app_eq. assumption.
Qed.

Lemma bst_sum_inorder (t : tree) : _sum t = weighted_sum (inorder t).
Proof.
  induction t as [|v l IHl r IHr c]; simpl; [reflexivity|].
  rewrite weighted_sum_app. simpl. lia.
Qed.

Lemma bst_size_inorder (t : tree) : size t = length (inorder t).
Proof.
  induction t as [|v l IHl r IHr c]; simpl; [reflexivity|].
  rewrite length_app. simpl. lia.
Qed.

Lemma bst_descend_left (v : Z) (l : tree) :
  descend_left v l =
  match first_key (inorder l) with Some k => k | None => v end.
Proof.
  revert v. induction l as [|v' l IHl r _ c]; intros v; simpl; [reflexivity|].
  rewrite IHl, first_key_app. destruct (first_key (inorder l)); reflexivity.
Qed.

Lemma bst_descend_right (v : Z) (r : tree) :
  descend_right v r =
  match last_key (inorder r) with Some k => k | None => v end.
Proof.
  revert v. induction r as [|v' l _ r IHr c]; intros v; simpl; [reflexivity|].
  rewrite IHr, last_key_app. destruct (last_key (inorder r)); reflexivity.
Qed.

Lemma bst_get_min_inorder (self : BST) :
  get_min self = answer (first_key (inorder (root self))).
Proof.
  unfold get_min. destruct (root self) as [|v l r c]; simpl; [reflexivity|].
  rewrite bst_descend_left, first_key_app.
  destruct (first_key (inorder l)); reflexivity.
Qed.

Lemma bst_get_max_inorder (self : BST) :
  get_max self = answer (last_key (inorder (root self))).
Proof.
  unfold get_max. destruct (root self) as [|v l r c]; simpl; [reflexivity|].
  rewrite bst_descend_right, last_key_app.
  destruct (last_key (inorder r)); reflexivity.
Qed.

Lemma bst_insert_present_shape (t : tree) (x : Z) :
  ordered t -> In x (values t) -> shape (_insert t x) = shape t.
Proof.
  induction t as [|v l IHl r IHr c]; simpl; intros Ho Hin; [contradiction|].
  destruct Ho as (Fl & Fr & Ol & Or).
  unfold values in *. simpl in Hin. rewrite keys_app in Hin. simpl in Hin.
  rewrite Forall_forall in Fl, Fr.
  rewrite Z.gtb_ltb.
  destruct (x <? v) eqn:E1; [|destruct (v <? x) eqn:E2]; simpl.
  - apply Z.ltb_lt in E1. rewrite IHl; auto.
    apply in_app_or in Hin. destruct Hin as [H|[H|H]]; auto; [lia|].
    apply Fr in H. lia.
  - apply Z.ltb_lt in E2. rewrite IHr; auto.
    apply in_app_or in Hin. destruct Hin as [H|[H|H]]; auto; [|lia].
    apply Fl in H. lia.
  - reflexivity.
Qed.

Lemma bst_insert_all_inorder (values : list Z) (self : BST) :
  sorted (inorder (root self)) ->
  inorder (root (insert_all self values)) =
  ins_all values (inorder (root self)).
Proof.
  unfold insert_all.
  revert self. induction values as [|v vs IH]; intros self Hs; [reflexivity|].
  simpl. rewrite IH.
  - simpl. rewrite bst_inorder_insert by assumption. reflexivity.
  - simpl. rewrite bst_inorder_insert by assumption. apply ins_sorted, Hs.
Qed.

(** Everything a caller can tell about a freshly built tree after the
    insertion sequence [values]. *)
Lemma bst_built_inorder (values : list Z) :
  inorder (root (insert_all init values)) = ins_all values [].
Proof. apply bst_insert_all_inorder. constructor. Qed.

(** *** The recursive methods under the bound on nested calls *)











End BSTFacts.

(** ** The balanced tree refines the list view *)

Section AVLFacts.
Import AVL.

Lemma avl_ordered_sorted (t : tree) : ordered t <-> sorted (inorder t).
Proof.
  induction t as [|v l IHl r IHr h c]; simpl.
  - split; [intros _; constructor|trivial].
  - rewrite sorted_app_iff, IHl, IHr. unfold values. tauto.
Qed.

Lemma avl_sum_inorder (t : tree) : _sum t = weighted_sum (inorder t).
Proof.
  induction t as [|v l IHl r IHr h c]; simpl; [reflexivity|].
  rewrite weighted_sum_app. simpl. lia.
Qed.

Lemma avl_size_inorder (t : tree) : size t = length (inorder t).
Proof.
  induction t as [|v l IHl r IHr h c]; simpl; [reflexivity|].
  rewrite length_app. simpl. lia.
Qed.

Lemma avl_descend_left (v : Z) (l : tree) :
  descend_left v l =
  match first_key (inorder l) with Some k => k | None => v end.
Proof.
  revert v. induction l as [|v' l IHl r _ h c]; intros v; simpl; [reflexivity|].
  rewrite IHl, first_key_app. destruct (first_key (inorder l)); reflexivity.
Qed.

Lemma avl_descend_right (v : Z) (r : tree) :
  descend_right v r =
  match last_key (inorder r) with Some k => k | None => v end.
Proof.
  revert v. induction r as [|v' l _ r IHr h c]; intros v; simpl; [reflexivity|].
  rewrite IHr, last_key_app. destruct (last_key (inorder r)); reflexivity.
Qed.

Lemma avl_get_min_inorder (self : AVL) :
  get_min self = answer (first_key (inorder (root self))).
Proof.
  unfold get_min. destruct (root self) as [|v l r h c]; simpl; [reflexivity|].
  rewrite avl_descend_left, first_key_app.
  destruct (first_key (inorder l)); reflexivity.
Qed.

Lemma avl_get_max_inorder (self : AVL) :
  get_max self = answer (last_key (inorder (root self))).
Proof.
  unfold get_max. destruct (root self) as [|v l r h c]; simpl; [reflexivity|].
  rewrite avl_descend_right, last_key_app.
  destruct (last_key (inorder r)); reflexivity.
Qed.

(** *** Rotations *)

Lemma left_rotate_inorder (z t : tree) :
  _left_rotate z = Ok t -> inorder t = inorder z.
Proof.
  destruct z as [|zv zl [|yv T2 yr yh yc] zh zc]; simpl; try discriminate.
  intros H. injection H as <-. simpl.
  rewrite <- app_assoc. reflexivity.
Qed.

Lemma right_rotate_inorder (z t : tree) :
  _right_rotate z = Ok t -> inorder t = inorder z.
Proof.
  destruct z as [|zv [|yv yl T3 yh yc] zr zh zc]; simpl; try discriminate.
  intros H. injection H as <-. simpl.
  rewrite <- app_assoc. reflexivity.
Qed.

Lemma bind_Ok {A B : Type} (m : result A) (k : A -> result B) (b : B) :
  bind m k = Ok b -> exists a, m = Ok a /\ k a = Ok b.
Proof. destruct m; simpl; [eauto|discriminate]. Qed.

Lemma rebalance_inorder (v : Z) (l r : tree) (c x : Z) (t : tree) :
  rebalance v l r c x = Ok t ->
  inorder t = inorder l ++ (v, c) :: inorder r.
Proof.
  unfold rebalance. intros H.
  apply bind_Ok in H. destruct H as ([] & _ & H).
  { apply right_rotate_inorder in H. exact H. }
  apply bind_Ok in H. destruct H as ([] & _ & H).
  { apply left_rotate_inorder in H. exact H. }
  apply bind_Ok in H. destruct H as ([] & _ & H).
  { apply bind_Ok in H. destruct H as (l' & Hl & H).
    apply right_rotate_inorder in H. apply left_rotate_inorder in Hl.
    rewrite H. simpl. rewrite Hl. reflexivity. }
  apply bind_Ok in H. destruct H as ([] & _ & H).
  { apply bind_Ok in H. destruct H as (r' & Hr & H).
    apply left_rotate_inorder in H. apply right_rotate_inorder in Hr.
    rewrite H. simpl. rewrite Hr. reflexivity. }
  injection H as <-. reflexivity.
Qed.

Lemma avl_inorder_insert (t : tree) (x : Z) (t' : tree) :
  sorted (inorder t) -> _insert t x = Ok t' ->
  inorder t' = ins x (inorder t).
Proof.
  revert t'. induction t as [|v l IHl r IHr h c]; simpl; intros t' Hs H.
  - injection H as <-. reflexivity.
  - apply sorted_app_iff in Hs. destruct Hs as (Sl & Sr & Fl & Fr).
    rewrite Z.gtb_ltb in H.
    destruct (x <? v) eqn:E1; [|destruct (v <? x) eqn:E2].
    + apply Z.ltb_lt in E1.
      apply bind_Ok in H. destruct H as (l' & Hl & H).
      apply rebalance_inorder in H. rewrite H, (IHl l') by assumption.
      symmetry. apply ins_app_lt. assumption.
    + apply Z.ltb_lt in E2.
      apply bind_Ok in H. destruct H as (r' & Hr & H).
      apply rebalance_inorder in H. rewrite H, (IHr r') by assumption.
      symmetry. apply ins_app_gt; assumption.
    + apply Z.ltb_ge in E1, E2. assert (v = x) by lia. subst.
      injection H as <-. simpl.
      symmetry. apply ins_app_eq. assumption.
Qed.

(** *** Balance *)

Lemma avl_height_nonneg (t : tree) : avl t -> 0 <= _height t.
Proof.
  induction t as [|v l IHl r IHr h c]; cbn [avl _height]; [lia|].
  intros (Hh & Hb & Al & Ar). specialize (IHl Al). specialize (IHr Ar). lia.
Qed.

Lemma avl_rebalance_left (v : Z) (l r : tree) (c x hl : Z) :
  avl l -> avl r ->
  -1 <= hl - _height r <= 1 -> 0 <= hl -> x < v ->
  _height l = hl \/ (_height l = hl + 1 /\ grew x l) ->
  exists t, rebalance v l r c x = Ok t /\ avl t /\
    (_height t = 1 + Z.max hl (_height r) \/
     (_height t = 2 + Z.max hl (_height r) /\ grew x t)).
Proof.
  intros Al Ar Hb Hl Hx Hg.
  pose proof (avl_height_nonneg l Al) as Nl.
  pose proof (avl_height_nonneg r Ar) as Nr.
  unfold rebalance. cbn [_get_balance]. rewrite !Z.gtb_ltb.
  destruct (Z.ltb_spec 1 (_height l - _height r)) as [B|B].
  - destruct Hg as [Hg|[Hg Gl]]; [lia|].
    destruct l as [|lv ll lr lh lc]; [contradiction|].
    cbn [avl _height grew] in *.
    destruct Al as (Hlh & Hlb & All & Alr).
    pose proof (avl_height_nonneg ll All) as Nll.
    pose proof (avl_height_nonneg lr Alr) as Nlr.
    cbn [and_then bind value_of]. rewrite !Z.gtb_ltb.
    destruct (Z.ltb_spec x lv) as [C|C].
    + cbn [_right_rotate _height].
      eexists; split; [reflexivity|]. cbn [avl _height].
      split; [repeat split; auto; lia|]. lia.
    + destruct (Z.ltb_spec (lh - _height r) (-1)) as [B'|B']; [lia|].
      cbn [and_then bind].
      destruct (Z.ltb_spec 1 (lh - _height r)) as [_|]; [|lia].
      cbn [and_then bind value_of].
      destruct (Z.ltb_spec lv x) as [C'|C']; [|lia].
      destruct lr as [|lrv lrl lrr lrh lrc]; [cbn [_height] in *; lia|].
      cbn [avl _height] in *.
      destruct Alr as (Hlrh & Hlrb & Alrl & Alrr).
      pose proof (avl_height_nonneg lrl Alrl).
      pose proof (avl_height_nonneg lrr Alrr).
      cbn [_left_rotate _right_rotate bind _height].
      eexists; split; [reflexivity|]. cbn [avl _height].
      split; [repeat split; auto; lia|]. lia.
  - destruct (Z.ltb_spec (_height l - _height r) (-1)) as [B'|B']; [lia|].
    cbn [and_then bind]. eexists; split; [reflexivity|]. cbn [avl _height grew].
    split; [repeat split; auto; lia|].
    destruct Hg as [Hg|[Hg _]]; lia.
Qed.

Lemma avl_rebalance_right (v : Z) (l r : tree) (c x hr : Z) :
  avl l -> avl r ->
  -1 <= _height l - hr <= 1 -> 0 <= hr -> v < x ->
  _height r = hr \/ (_height r = hr + 1 /\ grew x r) ->
  exists t, rebalance v l r c x = Ok t /\ avl t /\
    (_height t = 1 + Z.max (_height l) hr \/
     (_height t = 2 + Z.max (_height l) hr /\ grew x t)).
Proof.
  intros Al Ar Hb Hr Hx Hg.
  pose proof (avl_height_nonneg l Al) as Nl.
  pose proof (avl_height_nonneg r Ar) as Nr.
  unfold rebalance. cbn [_get_balance]. rewrite !Z.gtb_ltb.
  destruct (Z.ltb_spec 1 (_height l - _height r)) as [B|B];
    [destruct Hg as [Hg|[Hg _]]; lia|].
  cbn [and_then bind].
  destruct (Z.ltb_spec (_height l - _height r) (-1)) as [B'|B'].
  - destruct Hg as [Hg|[Hg Gr]]; [lia|].
    destruct r as [|rv rl rr rh rc]; [contradiction|].
    cbn [avl _height grew] in *.
    destruct Ar as (Hrh & Hrb & Arl & Arr).
    pose proof (avl_height_nonneg rl Arl) as Nrl.
    pose proof (avl_height_nonneg rr Arr) as Nrr.
    cbn [and_then bind value_of]. rewrite !Z.gtb_ltb.
    destruct (Z.ltb_spec rv x) as [C|C].
    + cbn [_left_rotate _height].
      eexists; split; [reflexivity|]. cbn [avl _height].
      split; [repeat split; auto; lia|]. lia.
    + destruct (Z.ltb_spec x rv) as [C'|C']; [|lia].
      destruct rl as [|rlv rll rlr rlh rlc]; [cbn [_height] in *; lia|].
      cbn [avl _height] in *.
      destruct Arl as (Hrlh & Hrlb & Arll & Arlr).
      pose proof (avl_height_nonneg rll Arll).
      pose proof (avl_height_nonneg rlr Arlr).
      cbn [_left_rotate _right_rotate bind _height].
      eexists; split; [reflexivity|]. cbn [avl _height].
      split; [repeat split; auto; lia|]. lia.
  - cbn [and_then bind]. eexists; split; [reflexivity|].
    cbn [avl _height grew].
    split; [repeat split; auto; lia|].
    destruct Hg as [Hg|[Hg _]]; lia.
Qed.

Lemma avl_insert_step (t : tree) (x : Z) :
  avl t ->
  exists t', _insert t x = Ok t' /\ avl t' /\
    (_height t' = _height t \/ (_height t' = _height t + 1 /\ grew x t')).
Proof.
  induction t as [|v l IHl r IHr h c]; intros A.
  - cbn [_insert]. eexists; split; [reflexivity|].
    cbn [avl _height grew]. split; [repeat split; lia|]. right. lia.
  - cbn [avl] in A. destruct A as (Hh & Hb & Al & Ar).
    pose proof (avl_height_nonneg l Al) as Nl.
    pose proof (avl_height_nonneg r Ar) as Nr.
    cbn [_insert _height]. rewrite Z.gtb_ltb.
    destruct (Z.ltb_spec x v) as [C|C]; [|destruct (Z.ltb_spec v x) as [C'|C']].
    + destruct (IHl Al) as (l' & El & Al' & Gl). rewrite El. cbn [bind].
      destruct (avl_rebalance_left v l' r c x (_height l) Al' Ar Hb Nl C Gl)
        as (t' & Et & At & Gt).
      exists t'. split; [exact Et|]. split; [exact At|].
      destruct Gt as [Gt|[Gt G]]; [left; lia|right; split; [lia|exact G]].
    + destruct (IHr Ar) as (r' & Er & Ar' & Gr). rewrite Er. cbn [bind].
      destruct (avl_rebalance_right v l r' c x (_height r) Al Ar' Hb Nr C' Gr)
        as (t' & Et & At & Gt).
      exists t'. split; [exact Et|]. split; [exact At|].
      destruct Gt as [Gt|[Gt G]]; [left; lia|right; split; [lia|exact G]].
    + eexists; split; [reflexivity|]. cbn [avl _height].
      split; [repeat split; auto; lia|]. left. reflexivity.
Qed.

Lemma avl_check_node (t : tree) : avl t -> check_node t = (true, _height t).
Proof.
  induction t as [|v l IHl r IHr h c]; cbn [avl check_node _height];
    [reflexivity|].
  intros (Hh & Hb & Al & Ar). rewrite (IHl Al), (IHr Ar).
  replace (Z.abs (_height l - _height r) <=? 1) with true
    by (symmetry; apply Z.leb_le; lia).
  rewrite Hh. reflexivity.
Qed.

Lemma avl_heights_ok (t : tree) : avl t -> heights_ok t.
Proof.
  induction t as [|v l IHl r IHr h c]; cbn [avl heights_ok]; [trivial|].
  intros (Hh & Hb & Al & Ar). auto.
Qed.

Lemma avl_insert_present_shape (t : tree) (x : Z) :
  avl t -> ordered t -> In x (values t) ->
  exists t', _insert t x = Ok t' /\ shape t' = shape t /\
             _height t' = _height t.
Proof.
  induction t as [|v l IHl r IHr h c]; intros A Ho Hin; [contradiction|].
  cbn [avl ordered] in A, Ho.
  destruct A as (Hh & Hb & Al & Ar). destruct Ho as (Fl & Fr & Ol & Or).
  unfold values in *. cbn [inorder] in Hin. rewrite keys_app in Hin.
  rewrite Forall_forall in Fl, Fr.
  apply in_app_or in Hin. cbn [keys map fst In] in Hin.
  cbn [_insert]. rewrite Z.gtb_ltb.
  destruct (Z.ltb_spec x v) as [C|C]; [|destruct (Z.ltb_spec v x) as [C'|C']].
  - assert (In x (keys (inorder l))) as Hx.
    { destruct Hin as [H|[H|H]]; [exact H|lia|apply Fr in H; lia]. }
    destruct (IHl Al Ol Hx) as (l' & El & Sl & Hl). rewrite El. cbn [bind].
    unfold rebalance. cbn [_get_balance]. rewrite !Z.gtb_ltb, Hl.
    destruct (Z.ltb_spec 1 (_height l - _height r)); [lia|].
    destruct (Z.ltb_spec (_height l - _height r) (-1)); [lia|].
    cbn [and_then bind]. eexists; split; [reflexivity|].
    cbn [shape _height]. rewrite Sl, Hh. split; reflexivity.
  - assert (In x (keys (inorder r))) as Hx.
    { destruct Hin as [H|[H|H]]; [apply Fl in H; lia|lia|exact H]. }
    destruct (IHr Ar Or Hx) as (r' & Er & Sr & Hr). rewrite Er. cbn [bind].
    unfold rebalance. cbn [_get_balance]. rewrite !Z.gtb_ltb, Hr.
    destruct (Z.ltb_spec 1 (_height l - _height r)); [lia|].
    destruct (Z.ltb_spec (_height l - _height r) (-1)); [lia|].
    cbn [and_then bind]. eexists; split; [reflexivity|].
    cbn [shape _height]. rewrite Sr, Hh. split; reflexivity.
  - eexists; split; [reflexivity|]. split; reflexivity.
Qed.

(** *** Whole insertion sequences *)

Lemma avl_insert_all_inv (values : list Z) (self : AVL) :
  avl (root self) -> sorted (inorder (root self)) ->
  exists self', insert_all self values = Ok self' /\
    avl (root self') /\
    inorder (root self') = ins_all values (inorder (root self)).
Proof.
  revert self. induction values as [|v vs IH]; intros self A Hs.
  - exists self. repeat split; auto.
  - cbn [insert_all]. unfold insert.
    destruct (avl_insert_step (root self) v A) as (t' & Et & At & _).
    rewrite Et. cbn [bind].
    pose proof (avl_inorder_insert _ _ _ Hs Et) as Ei.
    destruct (IH (mk t')) as (self' & E & A' & I').
    + exact At.
    + cbn [root]. rewrite Ei. apply ins_sorted, Hs.
    + exists self'. split; [exact E|]. split; [exact A'|].
      rewrite I'. cbn [root]. rewrite Ei. reflexivity.
Qed.

Lemma avl_built (values : list Z) :
  exists self, insert_all init values = Ok self /\
    avl (root self) /\ inorder (root self) = ins_all values [].
Proof. apply avl_insert_all_inv; cbn; [trivial|constructor]. Qed.

Lemma avl_verified_run (values : list Z) (self : AVL) :
  avl (root self) -> verified_run self values = true.
Proof.
revert self. induction values as [|v vs IH]; intros self A; [reflexivity|].
cbn [verified_run]. unfold insert.
destruct (avl_insert_step (root self) v A) as (t' & Et & At & _).
rewrite Et. cbn [bind].
unfold verify_avl_property. cbn [root]. rewrite (avl_check_node _ At).
cbn [fst andb]. apply IH. exact At.
Qed.

End AVLFacts.

(** ** Properties of trees built by insertion sequences *)

Section Properties.

Lemma built_min_max (values : list Z) :
  values <> [] ->
  exists lo hi,
    first_key (ins_all values []) = Some lo /\
    last_key (ins_all values []) = Some hi /\
    is_min lo values /\ is_max hi values.
Proof.
  intros Hne.
  assert (sorted (ins_all values [])) as Hs by (apply ins_all_sorted; constructor).
  assert (ins_all values [] <> []) as Hn by (apply ins_all_nonempty; auto).
  assert (forall x, In x (keys (ins_all values [])) <-> In x values) as Hk.
  { intros x. rewrite ins_all_In. simpl. tauto. }
  destruct (first_key (ins_all values [])) as [lo|] eqn:E1;
    [|apply first_key_None in E1; contradiction].
  destruct (last_key (ins_all values [])) as [hi|] eqn:E2;
    [|apply last_key_None in E2; contradiction].
  exists lo, hi. split; [reflexivity|]. split; [reflexivity|].
  destruct (first_key_min _ _ Hs E1) as [I1 F1].
  destruct (last_key_max _ _ Hs E2) as [I2 F2].
  rewrite Forall_forall in F1, F2.
  split; split; try (apply Hk; assumption);
    apply Forall_forall; intros x Hx; apply Hk in Hx; auto.
Qed.

Lemma bst_repeat_insert (v c : Z) (k : nat) :
BST.insert_all (BST.mk (BST.BSTNode v BST.Empty BST.Empty c)) (repeat v k) =
BST.mk (BST.BSTNode v BST.Empty BST.Empty (c + Z.of_nat k)).
Proof.
unfold BST.insert_all. revert c.
induction k as [|k IH]; intros c.
- cbn [repeat fold_left]. rewrite Z.add_0_r. reflexivity.
- cbn [repeat fold_left]. unfold BST.insert at 2. cbn [BST.root BST._insert].
  rewrite Z.gtb_ltb, Z.ltb_irrefl. rewrite IH. f_equal. f_equal. lia.
Qed.

Lemma avl_repeat_insert (v c : Z) (k : nat) :
AVL.insert_all (AVL.mk (AVL.AVLNode v AVL.Empty AVL.Empty 1 c)) (repeat v k) =
Ok (AVL.mk (AVL.AVLNode v AVL.Empty AVL.Empty 1 (c + Z.of_nat k))).
Proof.
revert c. induction k as [|k IH]; intros c.
- cbn [repeat AVL.insert_all]. rewrite Z.add_0_r. reflexivity.
- cbn [repeat AVL.insert_all]. unfold AVL.insert. cbn [AVL.root AVL._insert].
  rewrite Z.gtb_ltb, Z.ltb_irrefl. cbn [bind]. rewrite IH.
  do 3 f_equal. lia.
Qed.

(** C1. On a freshly constructed balanced tree every insertion sequence,
    increasing and decreasing ones included, runs without raising, and
    [verify_avl_property] returns [True] on the final tree and after each
    single insertion on the way. *)
Theorem C1_verify_avl_property_after_inserts (values : list Z) :
  (exists self,
     AVL.insert_all AVL.init values = Ok self /\
     AVL.verify_avl_property self = true) /\
  verified_run AVL.init values = true.
Proof.
  split.
  - destruct (avl_built values) as (self & E & A & _).
    exists self. split; [exact E|].
    unfold AVL.verify_avl_property. rewrite (avl_check_node _ A). reflexivity.
  - apply avl_verified_run. exact I.
Qed.

(** C2. [get_sum] of either structure after an insertion sequence is the
    arithmetic sum of the sequence, which is the sum of [value * count]
    over the nodes; on an empty tree it is 0. *)
Theorem C2_get_sum_is_sum_of_inserted (values : list Z) :
  (BST.get_sum (BST.insert_all BST.init values) = py_sum values /\
   BST.get_sum (BST.insert_all BST.init values) =
     weighted_sum (BST.inorder (BST.root (BST.insert_all BST.init values)))) /\
  (exists self,
     AVL.insert_all AVL.init values = Ok self /\
     AVL.get_sum self = py_sum values /\
     AVL.get_sum self = weighted_sum (AVL.inorder (AVL.root self))) /\
  BST.get_sum BST.init = 0 /\ AVL.get_sum AVL.init = 0.
Proof.
  split; [|split; [|split; reflexivity]].
  - unfold BST.get_sum. rewrite bst_sum_inorder. split; [|reflexivity].
    rewrite bst_built_inorder, ins_all_sum. reflexivity.
  - destruct (avl_built values) as (self & E & _ & I).
    exists self. split; [exact E|].
    unfold AVL.get_sum. rewrite avl_sum_inorder. split; [|reflexivity].
    rewrite I, ins_all_sum. reflexivity.
Qed.

(** C3. After a non-empty insertion sequence, [get_min] and [get_max] of
    either structure return the least and the greatest inserted value. *)
Theorem C3_get_min_get_max_correct (values : list Z) :
  values <> [] ->
  exists lo hi,
    is_min lo values /\ is_max hi values /\
    BST.get_min (BST.insert_all BST.init values) = Ok lo /\
    BST.get_max (BST.insert_all BST.init values) = Ok hi /\
    exists self,
      AVL.insert_all AVL.init values = Ok self /\
      AVL.get_min self = Ok lo /\ AVL.get_max self = Ok hi.
Proof.
  intros Hne. destruct (built_min_max values Hne) as (lo & hi & E1 & E2 & M1 & M2).
  exists lo, hi. split; [exact M1|]. split; [exact M2|].
  rewrite bst_get_min_inorder, bst_get_max_inorder, bst_built_inorder, E1, E2.
  split; [reflexivity|]. split; [reflexivity|].
  destruct (avl_built values) as (self & E & _ & I).
  exists self. split; [exact E|].
  rewrite avl_get_min_inorder, avl_get_max_inorder, I, E1, E2.
  split; reflexivity.
Qed.

Lemma C3_get_min_get_max_witness :
  [5; 3; 7; 2; 4; 6; 8; 5] <> [] /\
  exists lo hi,
    is_min lo [5; 3; 7; 2; 4; 6; 8; 5] /\ is_max hi [5; 3; 7; 2; 4; 6; 8; 5] /\
    BST.get_min (BST.insert_all BST.init [5; 3; 7; 2; 4; 6; 8; 5]) = Ok lo /\
    BST.get_max (BST.insert_all BST.init [5; 3; 7; 2; 4; 6; 8; 5]) = Ok hi /\
    exists self,
      AVL.insert_all AVL.init [5; 3; 7; 2; 4; 6; 8; 5] = Ok self /\
      AVL.get_min self = Ok lo /\ AVL.get_max self = Ok hi.
Proof.
  split; [discriminate|].
  apply (C3_get_min_get_max_correct [5; 3; 7; 2; 4; 6; 8; 5]). discriminate.
Defined.

(** C4. After every insertion sequence, in either structure, every node
    has only smaller values in its left subtree and only greater values
    in its right subtree. *)
Theorem C4_ordering_invariant (values : list Z) :
  BST.ordered (BST.root (BST.insert_all BST.init values)) /\
  exists self,
    AVL.insert_all AVL.init values = Ok self /\
    AVL.ordered (AVL.root self).
Proof.
  split.
  - apply bst_ordered_sorted. rewrite bst_built_inorder.
    apply ins_all_sorted. constructor.
  - destruct (avl_built values) as (self & E & _ & I).
    exists self. split; [exact E|].
    apply avl_ordered_sorted. rewrite I. apply ins_all_sorted. constructor.
Qed.



(** C6. After an insertion sequence containing [v], either structure has
    exactly one node holding [v] and its count is the number of times [v]
    was inserted; inserting [v] once more leaves the nodes, their values
    and their links as they are, so the number of nodes is unchanged; and
    [k + 1] insertions of [v] into a fresh tree give the single node [v]
    with count [k + 1]. *)
Theorem C6_duplicates_are_counted (values : list Z) (v : Z) :
In v values ->
(let self := BST.insert_all BST.init values in
 nodes_with v (BST.inorder (BST.root self)) = 1%nat /\
 count_of v (BST.inorder (BST.root self)) = occurrences v values /\
 BST.shape (BST.root (BST.insert self v)) = BST.shape (BST.root self) /\
 BST.size (BST.root (BST.insert self v)) = BST.size (BST.root self)) /\
(exists self self',
   AVL.insert_all AVL.init values = Ok self /\
   AVL.insert self v = Ok self' /\
   nodes_with v (AVL.inorder (AVL.root self)) = 1%nat /\
   count_of v (AVL.inorder (AVL.root self)) = occurrences v values /\
   AVL.shape (AVL.root self') = AVL.shape (AVL.root self) /\
   AVL.size (AVL.root self') = AVL.size (AVL.root self)) /\
(forall k : nat,
   BST.insert_all BST.init (repeat v (S k)) =
     BST.mk (BST.BSTNode v BST.Empty BST.Empty (Z.of_nat (S k))) /\
   AVL.insert_all AVL.init (repeat v (S k)) =
     Ok (AVL.mk (AVL.AVLNode v AVL.Empty AVL.Empty 1 (Z.of_nat (S k))))).
Proof.
intros Hin.
assert (sorted (ins_all values [])) as Hs by (apply ins_all_sorted; constructor).
assert (In v (keys (ins_all values []))) as Hk by (apply ins_all_In; auto).
assert (count_of v (ins_all values []) = occurrences v values) as Hc
  by (rewrite ins_all_count; reflexivity).
split; [|split].
- cbv zeta. rewrite bst_built_inorder.
  split; [apply nodes_with_sorted; assumption|]. split; [exact Hc|].
  split.
  + apply bst_insert_present_shape.
    * apply bst_ordered_sorted. rewrite bst_built_inorder. exact Hs.
    * unfold BST.values. rewrite bst_built_inorder. exact Hk.
  + rewrite !bst_size_inorder. cbn [BST.insert BST.root].
    rewrite bst_inorder_insert by (rewrite bst_built_inorder; exact Hs).
    rewrite bst_built_inorder. apply length_ins_present; assumption.
- destruct (avl_built values) as (self & E & A & I).
  assert (AVL.ordered (AVL.root self)) as Ho
    by (apply avl_ordered_sorted; rewrite I; exact Hs).
  assert (In v (AVL.values (AVL.root self))) as Hv
    by (unfold AVL.values; rewrite I; exact Hk).
  destruct (avl_insert_present_shape _ v A Ho Hv) as (t' & Et & St & _).
  exists self, (AVL.mk t'). split; [exact E|].
  split; [unfold AVL.insert; rewrite Et; reflexivity|].
  rewrite I. split; [apply nodes_with_sorted; assumption|]. split; [exact Hc|].
  split; [exact St|].
  cbn [AVL.root]. rewrite !avl_size_inorder.
  rewrite (avl_inorder_insert _ _ _ (proj1 (avl_ordered_sorted _) Ho) Et), I.
  apply length_ins_present; assumption.
- intros k. split.
  + cbn [repeat]. unfold BST.insert_all. cbn [fold_left].
    change (fold_left BST.insert (repeat v k) (BST.insert BST.init v))
      with (BST.insert_all (BST.mk (BST.BSTNode v BST.Empty BST.Empty 1)) (repeat v k)).
    rewrite bst_repeat_insert. do 2 f_equal. lia.
  + cbn [repeat AVL.insert_all]. unfold AVL.insert, AVL.init.
    cbn [AVL.root AVL._insert bind].
    rewrite avl_repeat_insert. do 3 f_equal. lia.
Qed.

Lemma C6_duplicates_witness :
In 5 [5; 3; 7; 2; 4; 6; 8; 5] /\
(let self := BST.insert_all BST.init [5; 3; 7; 2; 4; 6; 8; 5] in
 nodes_with 5 (BST.inorder (BST.root self)) = 1%nat /\
 count_of 5 (BST.inorder (BST.root self)) = occurrences 5 [5; 3; 7; 2; 4; 6; 8; 5] /\
 BST.shape (BST.root (BST.insert self 5)) = BST.shape (BST.root self) /\
 BST.size (BST.root (BST.insert self 5)) = BST.size (BST.root self)).
Proof.
assert (In 5 [5; 3; 7; 2; 4; 6; 8; 5]) as H by (simpl; auto).
split; [exact H|].
exact (proj1 (C6_duplicates_are_counted [5; 3; 7; 2; 4; 6; 8; 5] 5 H)).
Defined.

(** C7. After every insertion sequence into the balanced structure,
    duplicates included, every node's stored height is one more than the
    greater of its children's stored heights, an absent child counting
    as 0. *)
Theorem C7_stored_heights_invariant (values : list Z) :
  exists self,
    AVL.insert_all AVL.init values = Ok self /\
    AVL.heights_ok (AVL.root self).
Proof.
  destruct (avl_built values) as (self & E & A & _).
  exists self. split; [exact E|]. apply avl_heights_ok, A.
Qed.

(** C8. A left rotation at [z] whose right child [y] exists returns [y] as
    the root, with [z] as its left child and the former left subtree of [y]
    as the right child of [z]; the height of [z] and then the height of [y]
    are recomputed from their children.  The right rotation is the mirror
    image.  The in-order sequence of nodes is the same before and after. *)
Theorem C8_rotation_semantics (zv zh zc yv yh yc : Z) (a b c : AVL.tree) :
(let z := AVL.AVLNode zv a (AVL.AVLNode yv b c yh yc) zh zc in
 let z' := AVL.AVLNode zv a b (1 + Z.max (AVL._height a) (AVL._height b)) zc in
 let y' := AVL.AVLNode yv z' c (1 + Z.max (AVL._height z') (AVL._height c)) yc in
 AVL._left_rotate z = Ok y' /\ AVL.inorder y' = AVL.inorder z) /\
(let z := AVL.AVLNode zv (AVL.AVLNode yv a b yh yc) c zh zc in
 let z' := AVL.AVLNode zv b c (1 + Z.max (AVL._height b) (AVL._height c)) zc in
 let y' := AVL.AVLNode yv a z' (1 + Z.max (AVL._height a) (AVL._height z')) yc in
 AVL._right_rotate z = Ok y' /\ AVL.inorder y' = AVL.inorder z).
Proof.
cbv zeta. split; (split; [reflexivity|]).
- apply left_rotate_inorder. reflexivity.
- apply right_rotate_inorder. reflexivity.
Qed.

(** C9. For every insertion sequence applied to both structures,
    [get_min], [get_max] and [get_sum] give equal results, a raised
    empty-tree error being one of the possible results of the first two. *)
Theorem C9_bst_avl_interchangeable (values : list Z) :
exists self,
  AVL.insert_all AVL.init values = Ok self /\
  AVL.get_min self = BST.get_min (BST.insert_all BST.init values) /\
  AVL.get_max self = BST.get_max (BST.insert_all BST.init values) /\
  AVL.get_sum self = BST.get_sum (BST.insert_all BST.init values) /\
  AVL.inorder (AVL.root self) =
    BST.inorder (BST.root (BST.insert_all BST.init values)).
Proof.
destruct (avl_built values) as (self & E & _ & I).
exists self. split; [exact E|].
rewrite avl_get_min_inorder, avl_get_max_inorder.
rewrite bst_get_min_inorder, bst_get_max_inorder.
unfold AVL.get_sum, BST.get_sum. rewrite avl_sum_inorder, bst_sum_inorder.
rewrite I, bst_built_inorder. repeat split.
Qed.

(** C10. [verify_avl_property] on a tree without root returns [True]. *)
Theorem C10_verify_avl_property_empty :
  AVL.verify_avl_property AVL.init = true.
Proof. reflexivity. Qed.

(** ** The assertions of the script's main block and the sorted-input runs *)

Example main_bst :
let bst := BST.insert_all BST.init [5; 3; 7; 2; 4; 6; 8; 5] in
BST.get_max bst = Ok 8 /\ BST.get_min bst = Ok 2 /\ BST.get_sum bst = 40.
Proof. repeat split. Qed.

Example main_avl :
exists avl,
  AVL.insert_all AVL.init [5; 3; 7; 2; 4; 6; 8; 5] = Ok avl /\
  AVL.get_max avl = Ok 8 /\ AVL.get_min avl = Ok 2 /\ AVL.get_sum avl = 40.
Proof. eexists. split; [vm_compute; reflexivity|]. repeat split. Qed.

Example main_single :
BST.get_sum (BST.insert BST.init 10) = 10 /\
BST.get_min (BST.insert BST.init 10) = Ok 10 /\
BST.get_max (BST.insert BST.init 10) = Ok 10.
Proof. repeat split. Qed.

Example main_dup :
BST.insert_all BST.init [5; 5] = BST.mk (BST.BSTNode 5 BST.Empty BST.Empty 2) /\
AVL.insert_all AVL.init [5; 5] = Ok (AVL.mk (AVL.AVLNode 5 AVL.Empty AVL.Empty 1 2)).
Proof. split; reflexivity. Qed.

Example increasing_run :
verified_run AVL.init (map Z.of_nat (seq 1 300)) = true.
Proof. vm_compute. reflexivity. Qed.

Example decreasing_run :
verified_run AVL.init (rev (map Z.of_nat (seq 1 300))) = true.
Proof. vm_compute. reflexivity. Qed.

(** A rotation at a node without the needed child is an attribute error. *)
Example left_rotate_without_right :
AVL._left_rotate (AVL.AVLNode 1 AVL.Empty AVL.Empty 1 1) = Raise AttributeError.
Proof. reflexivity. Qed.

End Properties.

(** ** Further facts about the list view *)

Section MoreLists.

Lemma ins_comm (a b : Z) (es : list entry) :
  ins a (ins b es) = ins b (ins a es).
Proof.
induction es as [|[k c] es IH].
- cbn [ins].
  destruct (Z.ltb_spec a b), (Z.ltb_spec b a); try lia; try reflexivity.
  assert (a = b) by lia. subst. reflexivity.
- cbn [ins].
  destruct (Z.ltb_spec b k) as [Hbk|Hbk], (Z.ltb_spec a k) as [Hak|Hak]; cbn [ins].
  + destruct (Z.ltb_spec a b), (Z.ltb_spec b a); try lia.
    * destruct (Z.ltb_spec b k); [|lia]. reflexivity.
    * destruct (Z.ltb_spec a k); [|lia]. reflexivity.
    * assert (a = b) by lia. subst. reflexivity.
  + destruct (Z.ltb_spec a b); [lia|]. destruct (Z.ltb_spec b a); [|lia].
    destruct (Z.ltb_spec a k); [lia|].
    destruct (Z.ltb_spec k a); cbn [ins];
      destruct (Z.ltb_spec b k); try lia; reflexivity.
  + destruct (Z.ltb_spec b a); [lia|]. destruct (Z.ltb_spec a b); [|lia].
    destruct (Z.ltb_spec b k); [lia|].
    destruct (Z.ltb_spec k b); cbn [ins];
      destruct (Z.ltb_spec a k); try lia; reflexivity.
  + destruct (Z.ltb_spec k b) as [Hkb|Hkb], (Z.ltb_spec k a) as [Hka|Hka]; cbn [ins];
      repeat match goal with
             | |- context [?x <? ?y] => destruct (Z.ltb_spec x y); try lia
             end; try reflexivity.
    rewrite IH. reflexivity.
Qed.

Lemma ins_ins_all (a : Z) (values : list Z) (es : list entry) :
  ins a (ins_all values es) = ins_all values (ins a es).
Proof.
unfold ins_all. revert es.
induction values as [|v vs IH]; intros es; cbn [fold_left]; [reflexivity|].
rewrite IH, ins_comm. reflexivity.
Qed.

Lemma ins_all_Permutation (l1 l2 : list Z) (es : list entry) :
  Permutation l1 l2 -> ins_all l1 es = ins_all l2 es.
Proof.
intros P. revert es. induction P; intros es.
- reflexivity.
- unfold ins_all in *. cbn [fold_left]. apply IHP.
- unfold ins_all. cbn [fold_left]. rewrite ins_comm. reflexivity.
- rewrite IHP1. apply IHP2.
Qed.

Lemma total_count_ins (v : Z) (es : list entry) :
  total_count (ins v es) = total_count es + 1.
Proof.
induction es as [|[k c] es IH]; cbn [ins total_count fold_right fst snd]; [lia|].
destruct (v <? k); [cbn [total_count fold_right snd]; lia|].
destruct (k <? v); cbn [total_count fold_right snd].
- fold (total_count (ins v es)). rewrite IH. unfold total_count. lia.
- lia.
Qed.

Lemma ins_all_total_count (values : list Z) (es : list entry) :
  total_count (ins_all values es) = total_count es + Z.of_nat (length values).
Proof.
unfold ins_all. revert es.
induction values as [|v vs IH]; intros es; cbn [fold_left length]; [lia|].
rewrite IH, total_count_ins. lia.
Qed.

Lemma ins_all_distinct (values : list Z) :
  length (ins_all values []) = length (nodup Z.eq_dec values).
Proof.
transitivity (length (keys (ins_all values [])));
  [unfold keys; symmetry; apply length_map|].
apply Permutation_length, NoDup_Permutation.
- apply sorted_NoDup, ins_all_sorted. constructor.
- apply NoDup_nodup.
- intros x. rewrite ins_all_In, nodup_In. cbn. tauto.
Qed.

Lemma length_ins_absent (v : Z) (es : list entry) :
  ~ In v (keys es) -> length (ins v es) = S (length es).
Proof.
induction es as [|[k c] es IH]; cbn [ins keys map fst In length]; intros Hn;
  [reflexivity|].
destruct (Z.ltb_spec v k); [reflexivity|].
destruct (Z.ltb_spec k v); cbn [length].
- rewrite IH; [reflexivity|]. intros H'. apply Hn. right. exact H'.
- exfalso. apply Hn. left. lia.
Qed.

End MoreLists.

(** ** Depth of the balanced tree and the verifier *)

Section Depth.
Import AVL.

Lemma avl_depth_nonneg (t : tree) : 0 <= avl_depth t.
Proof.
induction t as [|v l IHl r IHr h c]; cbn [avl_depth]; lia.
Qed.

Lemma check_node_depth (t : tree) : snd (check_node t) = avl_depth t.
Proof.
induction t as [|v l IHl r IHr h c]; cbn [check_node avl_depth]; [reflexivity|].
destruct (check_node l) as [lo lh], (check_node r) as [ro rh].
cbn [snd] in *. subst. reflexivity.
Qed.

Lemma check_node_balanced (t : tree) :
  fst (check_node t) = true <-> depth_balanced t.
Proof.
induction t as [|v l IHl r IHr h c]; cbn [check_node depth_balanced];
  [cbn; tauto|].
pose proof (check_node_depth l) as Dl. pose proof (check_node_depth r) as Dr.
destruct (check_node l) as [lo lh], (check_node r) as [ro rh].
cbn [fst snd] in *. subst lh rh.
rewrite !andb_true_iff, Z.leb_le, IHl, IHr. tauto.
Qed.

Lemma avl_depth_stored (t : tree) : avl t -> avl_depth t = _height t.
Proof.
intros A. rewrite <- check_node_depth, (avl_check_node t A). reflexivity.
Qed.

Lemma depth_balanced_size (t : tree) :
  depth_balanced t -> 2 ^ (avl_depth t / 2) <= Z.of_nat (size t) + 1.
Proof.
induction t as [|v l IHl r IHr h c]; cbn [depth_balanced avl_depth size].
- intros _. cbn. lia.
- intros (Hb & Bl & Br). specialize (IHl Bl). specialize (IHr Br).
  pose proof (avl_depth_nonneg l) as Nl. pose proof (avl_depth_nonneg r) as Nr.
  set (d := 1 + Z.max (avl_depth l) (avl_depth r)).
  destruct (Z.eq_dec d 1) as [E|E].
  + rewrite E. cbn. lia.
  + assert (2 <= d) as Hd by (unfold d; lia).
    assert (d / 2 = (d - 2) / 2 + 1) as Hdiv.
    { replace d with ((d - 2) + 1 * 2) at 1 by lia.
      rewrite Z.div_add by lia. reflexivity. }
    assert (0 <= (d - 2) / 2) as Hq by (apply Z.div_pos; lia).
    rewrite Hdiv, Z.pow_add_r, Z.pow_1_r by lia.
    assert (2 ^ ((d - 2) / 2) <= 2 ^ (avl_depth l / 2)) as Pl.
    { apply Z.pow_le_mono_r; [lia|]. apply Z.div_le_mono; [lia|]. unfold d. lia. }
    assert (2 ^ ((d - 2) / 2) <= 2 ^ (avl_depth r / 2)) as Pr.
    { apply Z.pow_le_mono_r; [lia|]. apply Z.div_le_mono; [lia|]. unfold d. lia. }
    lia.
Qed.

Lemma depth_log_bound (d n : Z) :
  0 <= d -> 0 <= n -> 2 ^ (d / 2) <= n + 1 -> d <= 2 * Z.log2 (n + 1) + 1.
Proof.
intros Hd Hn H.
assert (d / 2 <= Z.log2 (n + 1)) as Hl.
{ apply Z.log2_le_pow2; [lia|exact H]. }
pose proof (Z.div_mod d 2 ltac:(lia)) as E.
pose proof (Z.mod_pos_bound d 2 ltac:(lia)). lia.
Qed.

End Depth.

(** ** Further properties of the two trees *)

Section MoreProperties.

Lemma bst_insert_right_chain (l : list Z) (x : Z) :
  Forall (fun y => y < x) l ->
  BST._insert (right_chain l) x = right_chain (l ++ [x]).
Proof.
induction l as [|a l IH]; intros F; [reflexivity|].
inversion F; subst.
cbn [right_chain fold_right app BST._insert].
rewrite Z.gtb_ltb.
destruct (Z.ltb_spec x a); [lia|]. destruct (Z.ltb_spec a x); [|lia].
fold (right_chain l). rewrite IH by assumption. reflexivity.
Qed.

Lemma bst_insert_left_chain (l : list Z) (x : Z) :
  Forall (fun y => x < y) l ->
  BST._insert (left_chain l) x = left_chain (l ++ [x]).
Proof.
induction l as [|a l IH]; intros F; [reflexivity|].
inversion F; subst.
cbn [left_chain fold_right app BST._insert].
destruct (Z.ltb_spec x a); [|lia].
fold (left_chain l). rewrite IH by assumption. reflexivity.
Qed.

Lemma bst_insert_all_snoc (self : BST.BST) (l : list Z) (x : Z) :
  BST.insert_all self (l ++ [x]) = BST.insert (BST.insert_all self l) x.
Proof. unfold BST.insert_all. rewrite fold_left_app. reflexivity. Qed.

Lemma ssorted_snoc {R : Z -> Z -> Prop} (l : list Z) (x : Z) :
  StronglySorted R (l ++ [x]) ->
  StronglySorted R l /\ Forall (fun y => R y x) l.
Proof.
induction l as [|a l IH]; cbn [app]; intros H.
- split; constructor.
- inversion H as [|? ? Hs Hf]; subst. destruct (IH Hs) as [S1 F1].
  rewrite Forall_app in Hf. destruct Hf as [Fa Fb]. inversion Fb; subst.
  split; constructor; assumption.
Qed.

Lemma built_keys_answer (values : list Z) :
  values <> [] ->
  exists lo hi, answer (first_key (ins_all values [])) = Ok lo /\
                answer (last_key (ins_all values [])) = Ok hi.
Proof.
intros Hne. destruct (built_min_max values Hne) as (lo & hi & E1 & E2 & _).
exists lo, hi. rewrite E1, E2. split; reflexivity.
Qed.

(** X1. The balanced tree built by any insertion sequence is of
    logarithmic depth: with [d] the number of nodes on its longest path
    and [n] its number of nodes, [2 ^ (d / 2) <= n + 1], hence
    [d <= 2 * log2 (n + 1) + 1]. *)
Theorem X1_avl_depth_logarithmic (values : list Z) :
  exists self,
    AVL.insert_all AVL.init values = Ok self /\
    2 ^ (avl_depth (AVL.root self) / 2) <= Z.of_nat (AVL.size (AVL.root self)) + 1 /\
    avl_depth (AVL.root self) <=
      2 * Z.log2 (Z.of_nat (AVL.size (AVL.root self)) + 1) + 1.
Proof.
destruct (avl_built values) as (self & E & A & _).
exists self. split; [exact E|].
assert (depth_balanced (AVL.root self)) as B.
{ apply check_node_balanced. rewrite (avl_check_node _ A). reflexivity. }
pose proof (depth_balanced_size _ B) as H. split; [exact H|].
apply depth_log_bound; [apply avl_depth_nonneg|lia|exact H].
Qed.

(** X2. [verify_avl_property] returns [True] exactly when the subtrees of
    every node differ in depth by at most one; the height it computes on
    the way is the depth of the tree, and the stored [height] fields are
    not consulted. *)
Theorem X2_verify_avl_property_decides_balance (self : AVL.AVL) :
  (AVL.verify_avl_property self = true <-> depth_balanced (AVL.root self)) /\
  snd (AVL.check_node (AVL.root self)) = avl_depth (AVL.root self).
Proof.
split; [apply check_node_balanced|apply check_node_depth].
Qed.

(** X3. The unbalanced tree fed a strictly increasing sequence becomes a
    chain of right children, one level per inserted value. *)
Theorem X3_bst_increasing_input_is_right_chain (values : list Z) :
  StronglySorted Z.lt values ->
  BST.root (BST.insert_all BST.init values) = right_chain values.
Proof.
induction values as [|x l IH] using rev_ind; intros Hs; [reflexivity|].
apply ssorted_snoc in Hs. destruct Hs as [Hs F].
rewrite bst_insert_all_snoc. cbn [BST.insert BST.root].
rewrite (IH Hs). apply bst_insert_right_chain. exact F.
Qed.

Lemma X3_bst_increasing_witness :
  StronglySorted Z.lt [1; 2; 3] /\
  BST.root (BST.insert_all BST.init [1; 2; 3]) = right_chain [1; 2; 3].
Proof.
assert (StronglySorted Z.lt [1; 2; 3]) as H
  by (repeat constructor; lia).
split; [exact H|]. exact (X3_bst_increasing_input_is_right_chain [1; 2; 3] H).
Defined.

(** X4. The unbalanced tree fed a strictly decreasing sequence becomes a
    chain of left children. *)
Theorem X4_bst_decreasing_input_is_left_chain (values : list Z) :
  StronglySorted Z.gt values ->
  BST.root (BST.insert_all BST.init values) = left_chain values.
Proof.
induction values as [|x l IH] using rev_ind; intros Hs; [reflexivity|].
apply ssorted_snoc in Hs. destruct Hs as [Hs F].
rewrite bst_insert_all_snoc. cbn [BST.insert BST.root].
rewrite (IH Hs). apply bst_insert_left_chain.
eapply Forall_impl; [|exact F]. cbn. intros; lia.
Qed.

Lemma X4_bst_decreasing_witness :
  StronglySorted Z.gt [3; 2; 1] /\
  BST.root (BST.insert_all BST.init [3; 2; 1]) = left_chain [3; 2; 1].
Proof.
assert (StronglySorted Z.gt [3; 2; 1]) as H
  by (repeat constructor; lia).
split; [exact H|]. exact (X4_bst_decreasing_input_is_left_chain [3; 2; 1] H).
Defined.

(** X5. A rotation is undone by the opposite rotation: on a tree whose
    stored heights are right, rotating left and then right at the new root
    gives the tree back, and likewise right then left. *)
Theorem X5_rotations_are_inverse (z : AVL.tree) :
  AVL.heights_ok z ->
  (forall y, AVL._left_rotate z = Ok y -> AVL._right_rotate y = Ok z) /\
  (forall y, AVL._right_rotate z = Ok y -> AVL._left_rotate y = Ok z).
Proof.
intros H. split; intros y E.
- destruct z as [|zv a [|yv b c yh yc] zh zc]; cbn [AVL._left_rotate] in E;
    try discriminate.
  injection E as <-. cbn [AVL.heights_ok AVL._height] in H.
  destruct H as (Hz & _ & Hy & _).
  cbn [AVL._right_rotate AVL._height]. rewrite <- Hy, <- Hz. reflexivity.
- destruct z as [|zv [|yv a b yh yc] c zh zc]; cbn [AVL._right_rotate] in E;
    try discriminate.
  injection E as <-. cbn [AVL.heights_ok AVL._height] in H.
  destruct H as (Hz & (Hy & _) & _).
  cbn [AVL._left_rotate AVL._height]. rewrite <- Hy, <- Hz. reflexivity.
Qed.

Lemma X5_rotations_witness :
  AVL.heights_ok
    (AVL.AVLNode 1 AVL.Empty (AVL.AVLNode 2 AVL.Empty AVL.Empty 1 1) 2 1) /\
  AVL._right_rotate
    (AVL.AVLNode 2 (AVL.AVLNode 1 AVL.Empty AVL.Empty 1 1) AVL.Empty 2 1) =
  Ok (AVL.AVLNode 1 AVL.Empty (AVL.AVLNode 2 AVL.Empty AVL.Empty 1 1) 2 1).
Proof.
assert (AVL.heights_ok
  (AVL.AVLNode 1 AVL.Empty (AVL.AVLNode 2 AVL.Empty AVL.Empty 1 1) 2 1)) as H
  by (cbn; repeat split; reflexivity).
split; [exact H|].
exact (proj1 (X5_rotations_are_inverse _ H) _ eq_refl).
Defined.

(** X6. A rotation that succeeds keeps the ordering invariant and the
    height invariant, and changes neither the number of nodes nor the
    weighted sum. *)
Theorem X6_rotations_keep_invariants (z t : AVL.tree) :
  AVL._left_rotate z = Ok t \/ AVL._right_rotate z = Ok t ->
  AVL.ordered z -> AVL.heights_ok z ->
  AVL.ordered t /\ AVL.heights_ok t /\
  AVL.size t = AVL.size z /\ AVL._sum t = AVL._sum z.
Proof.
intros R Ho Hh.
assert (AVL.inorder t = AVL.inorder z) as I
  by (destruct R as [R|R];
      [apply left_rotate_inorder|apply right_rotate_inorder]; exact R).
split; [apply avl_ordered_sorted; rewrite I; apply avl_ordered_sorted, Ho|].
split; [|split; [rewrite !avl_size_inorder, I; reflexivity
                |rewrite !avl_sum_inorder, I; reflexivity]].
destruct R as [R|R].
- destruct z as [|zv a [|yv b c yh yc] zh zc]; cbn [AVL._left_rotate] in R;
    try discriminate.
  injection R as <-. cbn [AVL.heights_ok AVL._height] in *. tauto.
- destruct z as [|zv [|yv a b yh yc] c zh zc]; cbn [AVL._right_rotate] in R;
    try discriminate.
  injection R as <-. cbn [AVL.heights_ok AVL._height] in *. tauto.
Qed.

Lemma X6_rotations_keep_witness :
  let z := AVL.AVLNode 1 AVL.Empty (AVL.AVLNode 2 AVL.Empty AVL.Empty 1 1) 2 1 in
  let t := AVL.AVLNode 2 (AVL.AVLNode 1 AVL.Empty AVL.Empty 1 1) AVL.Empty 2 1 in
  (AVL._left_rotate z = Ok t \/ AVL._right_rotate z = Ok t) /\
  AVL.ordered z /\ AVL.heights_ok z /\
  (AVL.ordered t /\ AVL.heights_ok t /\
   AVL.size t = AVL.size z /\ AVL._sum t = AVL._sum z).
Proof.
intros z t.
assert (AVL._left_rotate z = Ok t \/ AVL._right_rotate z = Ok t) as R
  by (left; reflexivity).
assert (AVL.ordered z) as Ho by (cbn; repeat split; repeat constructor; lia).
assert (AVL.heights_ok z) as Hh by (cbn; repeat split; reflexivity).
split; [exact R|]. split; [exact Ho|]. split; [exact Hh|].
exact (X6_rotations_keep_invariants z t R Ho Hh).
Defined.

(** X7. The answers of the queries do not depend on the order of the
    insertions: two sequences that are permutations of each other give, in
    either structure, the same nodes with the same counts in order, hence
    the same [get_min], [get_max] and [get_sum]. *)
Theorem X7_insertion_order_is_irrelevant (l1 l2 : list Z) :
  Permutation l1 l2 ->
  (let t1 := BST.insert_all BST.init l1 in
   let t2 := BST.insert_all BST.init l2 in
   BST.inorder (BST.root t1) = BST.inorder (BST.root t2) /\
   BST.get_min t1 = BST.get_min t2 /\
   BST.get_max t1 = BST.get_max t2 /\
   BST.get_sum t1 = BST.get_sum t2) /\
  (exists t1 t2,
     AVL.insert_all AVL.init l1 = Ok t1 /\
     AVL.insert_all AVL.init l2 = Ok t2 /\
     AVL.inorder (AVL.root t1) = AVL.inorder (AVL.root t2) /\
     AVL.get_min t1 = AVL.get_min t2 /\
     AVL.get_max t1 = AVL.get_max t2 /\
     AVL.get_sum t1 = AVL.get_sum t2).
Proof.
intros P. pose proof (ins_all_Permutation l1 l2 [] P) as E.
split.
- cbv zeta.
  rewrite !bst_get_min_inorder, !bst_get_max_inorder.
  unfold BST.get_sum. rewrite !bst_sum_inorder, !bst_built_inorder, E.
  repeat split.
- destruct (avl_built l1) as (t1 & E1 & _ & I1).
  destruct (avl_built l2) as (t2 & E2 & _ & I2).
  exists t1, t2. split; [exact E1|]. split; [exact E2|].
  rewrite !avl_get_min_inorder, !avl_get_max_inorder.
  unfold AVL.get_sum. rewrite !avl_sum_inorder, I1, I2, E.
  repeat split.
Qed.

Lemma X7_insertion_order_witness :
  Permutation [3; 1; 2; 1] [1; 1; 2; 3] /\
  BST.inorder (BST.root (BST.insert_all BST.init [3; 1; 2; 1])) =
  BST.inorder (BST.root (BST.insert_all BST.init [1; 1; 2; 3])).
Proof.
assert (Permutation [3; 1; 2; 1] [1; 1; 2; 3]) as P.
{ apply (Permutation_cons_app [1; 1; 2] [] 3).
  apply (Permutation_cons_app [] [1; 2] 1).
  apply perm_swap. }
split; [exact P|].
exact (proj1 (proj1 (X7_insertion_order_is_irrelevant _ _ P))).
Defined.

(** X8. The counts of all nodes add up to the number of insertions made,
    in either structure. *)
Theorem X8_counts_add_up_to_insertions (values : list Z) :
  total_count (BST.inorder (BST.root (BST.insert_all BST.init values))) =
    Z.of_nat (length values) /\
  exists self,
    AVL.insert_all AVL.init values = Ok self /\
    total_count (AVL.inorder (AVL.root self)) = Z.of_nat (length values).
Proof.
split.
- rewrite bst_built_inorder, ins_all_total_count. reflexivity.
- destruct (avl_built values) as (self & E & _ & I).
  exists self. split; [exact E|].
  rewrite I, ins_all_total_count. reflexivity.
Qed.

(** X9. The number of nodes of either structure is the number of distinct
    values inserted. *)
Theorem X9_one_node_per_distinct_value (values : list Z) :
  BST.size (BST.root (BST.insert_all BST.init values)) =
    length (nodup Z.eq_dec values) /\
  exists self,
    AVL.insert_all AVL.init values = Ok self /\
    AVL.size (AVL.root self) = length (nodup Z.eq_dec values).
Proof.
split.
- rewrite bst_size_inorder, bst_built_inorder. apply ins_all_distinct.
- destruct (avl_built values) as (self & E & _ & I).
  exists self. split; [exact E|].
  rewrite avl_size_inorder, I. apply ins_all_distinct.
Qed.

(** X10. Inserting a value that was not inserted before adds exactly one
    node, holding that value with count 1, to either structure. *)
Theorem X10_new_value_adds_one_node (values : list Z) (v : Z) :
  ~ In v values ->
  (let self := BST.insert_all BST.init values in
   BST.size (BST.root (BST.insert self v)) = S (BST.size (BST.root self)) /\
   nodes_with v (BST.inorder (BST.root (BST.insert self v))) = 1%nat /\
   count_of v (BST.inorder (BST.root (BST.insert self v))) = 1) /\
  (exists self self',
     AVL.insert_all AVL.init values = Ok self /\
     AVL.insert self v = Ok self' /\
     AVL.size (AVL.root self') = S (AVL.size (AVL.root self)) /\
     nodes_with v (AVL.inorder (AVL.root self')) = 1%nat /\
     count_of v (AVL.inorder (AVL.root self')) = 1).
Proof.
intros Hn.
assert (sorted (ins_all values [])) as Hs by (apply ins_all_sorted; constructor).
assert (~ In v (keys (ins_all values []))) as Hk.
{ rewrite ins_all_In. cbn. tauto. }
assert (count_of v (ins_all values []) = 0) as Hc.
{ rewrite ins_all_count. cbn [count_of fold_right].
  rewrite (proj1 (count_occ_not_In Z.eq_dec values v) Hn). reflexivity. }
assert (nodes_with v (ins v (ins_all values [])) = 1%nat) as Hone.
{ apply nodes_with_sorted; [apply ins_sorted, Hs|].
  apply keys_ins_In. left. reflexivity. }
assert (count_of v (ins v (ins_all values [])) = 1) as Hcnt.
{ rewrite count_of_ins, Hc, Z.eqb_refl. reflexivity. }
split.
- cbv zeta. cbn [BST.insert BST.root].
  rewrite !bst_size_inorder.
  rewrite bst_inorder_insert by (rewrite bst_built_inorder; exact Hs).
  rewrite bst_built_inorder.
  split; [apply length_ins_absent, Hk|]. split; assumption.
- destruct (avl_built values) as (self & E & A & I).
  destruct (avl_insert_step (AVL.root self) v A) as (t' & Et & _).
  assert (sorted (AVL.inorder (AVL.root self))) as Hs' by (rewrite I; exact Hs).
  pose proof (avl_inorder_insert _ _ _ Hs' Et) as I'.
  exists self, (AVL.mk t'). split; [exact E|].
  split; [unfold AVL.insert; rewrite Et; reflexivity|].
  cbn [AVL.root]. rewrite !avl_size_inorder, I', I.
  split; [apply length_ins_absent, Hk|]. split; assumption.
Qed.

Lemma X10_new_value_witness :
  ~ In 9 [5; 3; 7] /\
  (let self := BST.insert_all BST.init [5; 3; 7] in
   BST.size (BST.root (BST.insert self 9)) = S (BST.size (BST.root self)) /\
   nodes_with 9 (BST.inorder (BST.root (BST.insert self 9))) = 1%nat /\
   count_of 9 (BST.inorder (BST.root (BST.insert self 9))) = 1).
Proof.
assert (~ In 9 [5; 3; 7]) as H by (cbn; lia).
split; [exact H|]. exact (proj1 (X10_new_value_adds_one_node [5; 3; 7] 9 H)).
Defined.


(** X22. [benchmark_operation] on the balanced tree raises the
    empty-tree error when called with empty data, because it calls
    [get_max] on the tree it has just built, and with any non-empty data
    it runs to its end: no insertion, rotation or query raises. *)
Theorem X22_benchmark_operation_avl_outcome (data : list Z) :
  benchmark_operation AVL_class data =
  match data with [] => Raise ValueError | _ :: _ => Ok tt end.
Proof.
unfold benchmark_operation. cbn [tc_new AVL_class bind].
destruct data as [|v rest]; [reflexivity|].
assert (forall tree l, tc_insert_all AVL_class tree l = AVL.insert_all tree l)
  as Hloop.
{ intros tree l. revert tree. induction l as [|x l IH]; intros tree;
    [reflexivity|].
  cbn [tc_insert_all tc_insert AVL_class AVL.insert_all].
  destruct (AVL.insert tree x); cbn [bind]; [apply IH|reflexivity]. }
rewrite Hloop.
assert (v :: rest <> []) as Hne by discriminate.
destruct (built_keys_answer (v :: rest) Hne) as (lo & hi & E1 & E2).
destruct (avl_built (v :: rest)) as (self & E & _ & I).
rewrite E. cbn [bind tc_get_max tc_get_min tc_get_sum AVL_class].
rewrite avl_get_max_inorder, avl_get_min_inorder, I, E1, E2.
reflexivity.
Qed.

(** X12. One insertion into a balanced tree built by insertions never
    lowers its depth and raises it by at most one. *)
Theorem X12_avl_insert_depth_step (values : list Z) (v : Z) :
  exists self self',
    AVL.insert_all AVL.init values = Ok self /\
    AVL.insert self v = Ok self' /\
    0 <= avl_depth (AVL.root self') - avl_depth (AVL.root self) <= 1.
Proof.
destruct (avl_built values) as (self & E & A & _).
destruct (avl_insert_step (AVL.root self) v A) as (t' & Et & At & G).
exists self, (AVL.mk t'). split; [exact E|].
split; [unfold AVL.insert; rewrite Et; reflexivity|].
cbn [AVL.root]. rewrite (avl_depth_stored _ A), (avl_depth_stored _ At).
destruct G as [G|[G _]]; lia.
Qed.

(** X13. On any balanced tree that satisfies the height, balance and
    ordering invariants, however it was obtained, [insert] does not raise
    and the new tree satisfies them again, passes [verify_avl_property],
    holds the old nodes with the inserted value added in order, and has a
    sum greater by the inserted value. *)
Theorem X13_avl_insert_on_valid_tree (self : AVL.AVL) (v : Z) :
  AVL.avl (AVL.root self) -> AVL.ordered (AVL.root self) ->
  exists self',
    AVL.insert self v = Ok self' /\
    AVL.avl (AVL.root self') /\ AVL.ordered (AVL.root self') /\
    AVL.verify_avl_property self' = true /\
    AVL.inorder (AVL.root self') = ins v (AVL.inorder (AVL.root self)) /\
    AVL.get_sum self' = AVL.get_sum self + v.
Proof.
intros A Ho.
destruct (avl_insert_step (AVL.root self) v A) as (t' & Et & At & _).
pose proof (proj1 (avl_ordered_sorted _) Ho) as Hs.
pose proof (avl_inorder_insert _ _ _ Hs Et) as I.
exists (AVL.mk t'). split; [unfold AVL.insert; rewrite Et; reflexivity|].
cbn [AVL.root]. split; [exact At|].
split; [apply avl_ordered_sorted; rewrite I; apply ins_sorted, Hs|].
split; [unfold AVL.verify_avl_property; cbn [AVL.root];
        rewrite (avl_check_node _ At); reflexivity|].
split; [exact I|].
unfold AVL.get_sum. cbn [AVL.root].
rewrite !avl_sum_inorder, I. apply weighted_sum_ins.
Qed.

Lemma X13_avl_insert_witness :
  let self := AVL.mk (AVL.AVLNode 2 (AVL.AVLNode 1 AVL.Empty AVL.Empty 1 1)
                                    AVL.Empty 2 1) in
  AVL.avl (AVL.root self) /\ AVL.ordered (AVL.root self) /\
  exists self',
    AVL.insert self 0 = Ok self' /\
    AVL.avl (AVL.root self') /\ AVL.ordered (AVL.root self') /\
    AVL.verify_avl_property self' = true /\
    AVL.inorder (AVL.root self') = ins 0 (AVL.inorder (AVL.root self)) /\
    AVL.get_sum self' = AVL.get_sum self + 0.
Proof.
intros self.
assert (AVL.avl (AVL.root self)) as A by (cbn; repeat split; lia).
assert (AVL.ordered (AVL.root self)) as Ho
  by (cbn; repeat split; repeat constructor; lia).
split; [exact A|]. split; [exact Ho|].
exact (X13_avl_insert_on_valid_tree self 0 A Ho).
Defined.

(** X14. On any unbalanced tree that satisfies the ordering invariant,
    [insert] keeps it, adds the value to the nodes in order and raises
    the sum by the inserted value. *)
Theorem X14_bst_insert_on_ordered_tree (self : BST.BST) (v : Z) :
  BST.ordered (BST.root self) ->
  BST.ordered (BST.root (BST.insert self v)) /\
  BST.inorder (BST.root (BST.insert self v)) = ins v (BST.inorder (BST.root self)) /\
  BST.get_sum (BST.insert self v) = BST.get_sum self + v.
Proof.
intros Ho. pose proof (proj1 (bst_ordered_sorted _) Ho) as Hs.
pose proof (bst_inorder_insert (BST.root self) v Hs) as I.
cbn [BST.insert BST.root].
split; [apply bst_ordered_sorted; rewrite I; apply ins_sorted, Hs|].
split; [exact I|].
unfold BST.get_sum. cbn [BST.insert BST.root].
rewrite !bst_sum_inorder, I. apply weighted_sum_ins.
Qed.

Lemma X14_bst_insert_witness :
  let self := BST.mk (BST.BSTNode 2 (BST.BSTNode 1 BST.Empty BST.Empty 3)
                                    BST.Empty 1) in
  BST.ordered (BST.root self) /\
  BST.ordered (BST.root (BST.insert self 5)) /\
  BST.inorder (BST.root (BST.insert self 5)) = ins 5 (BST.inorder (BST.root self)) /\
  BST.get_sum (BST.insert self 5) = BST.get_sum self + 5.
Proof.
intros self.
assert (BST.ordered (BST.root self)) as Ho
  by (cbn; repeat split; repeat constructor; lia).
split; [exact Ho|]. exact (X14_bst_insert_on_ordered_tree self 5 Ho).
Defined.

End MoreProperties.

(** ** The comment hierarchy *)

Section CommentFacts.
Import Comments.

Lemma set_eq (h : heap) (self : nat) (c : Comment) : set h self c self = c.
Proof. unfold set. rewrite Nat.eqb_refl. reflexivity. Qed.

Lemma set_neq (h : heap) (self r : nat) (c : Comment) :
  r <> self -> set h self c r = h r.
Proof.
intros H. unfold set. destruct (Nat.eqb_spec r self); [contradiction|reflexivity].
Qed.

Lemma for_each_app {S : Type} (body : S -> nat -> outcome S)
  (l1 l2 : list nat) (acc : S) :
  for_each body (l1 ++ l2) acc =
  match for_each body l1 acc with
  | Done acc' => for_each body l2 acc'
  | TypeError => TypeError
  | RecursionError => RecursionError
  end.
Proof.
revert acc. induction l1 as [|x l1 IH]; intros acc; cbn [app for_each];
  [reflexivity|].
destruct (body acc x); auto.
Qed.

Lemma get_reply_count_S (d : nat) (h : heap) (self : nat) :
  get_reply_count (S d) h self =
  sum_loop (get_reply_count d h) (replies (h self))
           (Z.of_nat (length (replies (h self)))).
Proof. reflexivity. Qed.

Lemma sum_loop_each (f : nat -> outcome Z) (l : list nat) (a n : Z) :
  sum_loop f l a = Done n -> forall y, In y l -> exists m, f y = Done m.
Proof.
unfold sum_loop. revert a. induction l as [|x l IH]; intros a H y Hy;
  [contradiction|].
cbn [for_each] in H. destruct (f x) as [m| |] eqn:E; try discriminate.
destruct Hy as [<-|Hy]; [eauto|]. eapply IH; eauto.
Qed.

Lemma sum_loop_bound (f : nat -> outcome Z) (l : list nat) (a n : Z) :
  (forall y m, In y l -> f y = Done m -> 0 <= m) ->
  sum_loop f l a = Done n ->
  a <= n /\ forall y m, In y l -> f y = Done m -> a + m <= n.
Proof.
unfold sum_loop. revert a. induction l as [|x l IH]; intros a Hpos H.
- cbn [for_each] in H. injection H as <-. split; [lia|]. intros ? ? [].
- cbn [for_each] in H. destruct (f x) as [mx| |] eqn:E; try discriminate.
  assert (0 <= mx) as Hx by (apply (Hpos x); [left; reflexivity|exact E]).
  destruct (IH (a + mx)) as [H1 H2]; [|exact H|].
  { intros y m Hy. apply Hpos. right. exact Hy. }
  split; [lia|]. intros y m [<-|Hy] Ey.
  + rewrite E in Ey. injection Ey as <-. lia.
  + specialize (H2 y m Hy Ey). lia.
Qed.

Lemma sum_loop_mono (f g : nat -> outcome Z) (l : list nat) (a n : Z) :
  (forall y m, In y l -> f y = Done m -> g y = Done m) ->
  sum_loop f l a = Done n -> sum_loop g l a = Done n.
Proof.
unfold sum_loop. revert a. induction l as [|x l IH]; intros a Hfg H;
  [exact H|].
cbn [for_each] in *. destruct (f x) as [mx| |] eqn:E; try discriminate.
rewrite (Hfg x mx (or_introl eq_refl) E).
apply IH; [|exact H]. intros y m Hy. apply Hfg. right. exact Hy.
Qed.

Lemma sum_loop_shift (f : nat -> outcome Z) (l : list nat) (a n k : Z) :
  sum_loop f l a = Done n -> sum_loop f l (a + k) = Done (n + k).
Proof.
unfold sum_loop. revert a. induction l as [|x l IH]; intros a H.
- cbn [for_each] in *. injection H as <-. reflexivity.
- cbn [for_each] in *. destruct (f x) as [mx| |]; try discriminate.
  replace (a + k + mx) with (a + mx + k) by lia. apply IH, H.
Qed.

Lemma sum_loop_fails (f : nat -> outcome Z) (l : list nat) (a : Z) (y : nat) :
  (forall z, f z <> TypeError) -> In y l -> f y = RecursionError ->
  sum_loop f l a = RecursionError.
Proof.
unfold sum_loop. intros Hty. revert a.
induction l as [|x l IH]; intros a Hy E; [contradiction|].
cbn [for_each]. destruct Hy as [->|Hy].
- rewrite E. reflexivity.
- destruct (f x) as [mx| |] eqn:Ex; [apply IH; assumption| |reflexivity].
  exfalso. exact (Hty x Ex).
Qed.

Lemma sum_loop_no_type_error (f : nat -> outcome Z) (l : list nat) (a : Z) :
  (forall z, f z <> TypeError) -> sum_loop f l a <> TypeError.
Proof.
unfold sum_loop. intros Hty. revert a.
induction l as [|x l IH]; intros a; cbn [for_each]; [discriminate|].
destruct (f x) as [mx| |] eqn:Ex; [apply IH| |discriminate].
exfalso. exact (Hty x Ex).
Qed.

Lemma get_reply_count_no_type_error (d : nat) (h : heap) (x : nat) :
  get_reply_count d h x <> TypeError.
Proof.
revert x. induction d as [|d IH]; intros x; [discriminate|].
rewrite get_reply_count_S. apply sum_loop_no_type_error. exact IH.
Qed.

Lemma get_reply_count_nonneg (d : nat) (h : heap) (x : nat) (n : Z) :
  get_reply_count d h x = Done n -> 0 <= n.
Proof.
revert x n. induction d as [|d IH]; intros x n H; [discriminate|].
rewrite get_reply_count_S in H.
apply sum_loop_bound in H; [lia|].
intros y m _. apply IH.
Qed.

Lemma get_reply_count_edge (d : nat) (h : heap) (x y : nat) (n : Z) :
  get_reply_count (S d) h x = Done n -> edge h x y ->
  exists m, get_reply_count d h y = Done m /\ m + 1 <= n.
Proof.
intros H Hy. rewrite get_reply_count_S in H.
destruct (sum_loop_each _ _ _ _ H y Hy) as (m & Em).
exists m. split; [exact Em|].
apply sum_loop_bound in H; [|intros z k _; apply get_reply_count_nonneg].
destruct H as [_ H]. specialize (H y m Hy Em).
assert (1 <= Z.of_nat (length (replies (h x)))).
{ unfold edge in Hy. destruct (replies (h x)); [contradiction|cbn [length]; lia]. }
lia.
Qed.

Lemma get_reply_count_more (d : nat) (h : heap) (x : nat) (n : Z) :
  get_reply_count d h x = Done n -> get_reply_count (S d) h x = Done n.
Proof.
revert x n. induction d as [|d IH]; intros x n H; [discriminate|].
rewrite get_reply_count_S in *.
eapply sum_loop_mono; [|exact H]. intros y m _. apply IH.
Qed.

Lemma get_reply_count_le (d d' : nat) (h : heap) (x : nat) (n : Z) :
  (d <= d')%nat -> get_reply_count d h x = Done n ->
  get_reply_count d' h x = Done n.
Proof.
intros Hle H. induction Hle; [exact H|]. apply get_reply_count_more. assumption.
Qed.

Lemma get_reply_count_same (d d' : nat) (h : heap) (x : nat) (n n' : Z) :
  get_reply_count d h x = Done n -> get_reply_count d' h x = Done n' -> n = n'.
Proof.
intros H H'. destruct (Nat.le_ge_cases d d') as [L|L].
- rewrite (get_reply_count_le _ _ _ _ _ L H) in H'. congruence.
- rewrite (get_reply_count_le _ _ _ _ _ L H') in H. congruence.
Qed.

Lemma get_reply_count_below (h : heap) (x y : nat) :
  below h x y ->
  forall d n, get_reply_count d h x = Done n ->
  exists d' m, get_reply_count d' h y = Done m /\ m + 1 <= n.
Proof.
induction 1 as [x y E|x y z _ IH1 _ IH2]; intros d n H.
- destruct d as [|d]; [discriminate|].
  destruct (get_reply_count_edge d h x y n H E) as (m & Em & Hm). eauto.
- destruct (IH1 d n H) as (d1 & m1 & E1 & H1).
  destruct (IH2 d1 m1 E1) as (d2 & m2 & E2 & H2).
  exists d2, m2. split; [exact E2|lia].
Qed.

Lemma get_reply_count_cycle (h : heap) (self : nat) (d : nat) :
  below h self self ->
  get_reply_count d h self = RecursionError.
Proof.
intros C. destruct (get_reply_count d h self) as [n| |] eqn:E; [|exfalso|reflexivity].
- exfalso. destruct (get_reply_count_below h self self C d n E) as (d' & m & E' & Hm).
  pose proof (get_reply_count_same _ _ _ _ _ _ E E'). lia.
- exact (get_reply_count_no_type_error d h self E).
Qed.

Lemma sum_loop_ext (f g : nat -> outcome Z) (l : list nat) (a : Z) :
  (forall y, In y l -> f y = g y) -> sum_loop f l a = sum_loop g l a.
Proof.
unfold sum_loop. revert a. induction l as [|x l IH]; intros a H; [reflexivity|].
cbn [for_each]. rewrite <- (H x (or_introl eq_refl)).
destruct (f x); try reflexivity.
apply IH. intros y Hy. apply H. right. exact Hy.
Qed.

Lemma get_reply_count_ext (d : nat) (h1 h2 : heap) (x : nat) :
  (forall r, replies (h1 r) = replies (h2 r)) ->
  get_reply_count d h1 x = get_reply_count d h2 x.
Proof.
intros H. revert x. induction d as [|d IH]; intros x; [reflexivity|].
rewrite !get_reply_count_S, H. apply sum_loop_ext. intros y _. apply IH.
Qed.

Lemma remove_reply_replies (h : heap) (x r : nat) :
  replies (remove_reply h x r) = replies (h r).
Proof.
unfold remove_reply, set. destruct (Nat.eqb_spec r x) as [->|]; reflexivity.
Qed.

(** *** [display] *)



(** *** [find_replies_by_author] *)

Lemma find_replies_by_author_S (d : nat) (h : heap) (self : nat)
  (who : String.string) :
  find_replies_by_author (S d) h self who =
  for_each
    (fun found_replies reply =>
       let found_replies' :=
         if String.eqb (author (h reply)) who && negb (is_deleted (h reply))
         then found_replies ++ [reply]
         else found_replies in
       match find_replies_by_author d h reply who with
       | Done more => Done (found_replies' ++ more)
       | TypeError => TypeError
       | RecursionError => RecursionError
       end)
    (replies (h self)) [].
Proof. reflexivity. Qed.

Lemma find_sound (d : nat) (h : heap) (x : nat) (who : String.string)
  (found : list nat) :
  find_replies_by_author d h x who = Done found ->
  Forall (fun r => author (h r) = who /\ is_deleted (h r) = false) found.
Proof.
set (P := fun r => author (h r) = who /\ is_deleted (h r) = false).
revert x found. induction d as [|d IH]; intros x found H; [discriminate|].
rewrite find_replies_by_author_S in H.
assert (forall (l acc : list nat),
  for_each
    (fun found_replies reply =>
       let found_replies' :=
         if String.eqb (author (h reply)) who && negb (is_deleted (h reply))
         then found_replies ++ [reply]
         else found_replies in
       match find_replies_by_author d h reply who with
       | Done more => Done (found_replies' ++ more)
       | TypeError => TypeError
       | RecursionError => RecursionError
       end) l acc = Done found ->
  Forall P acc -> Forall P found) as Hloop.
{ induction l as [|y l IHl]; intros acc Hl Hacc.
  - cbn [for_each] in Hl. injection Hl as <-. exact Hacc.
  - cbn [for_each] in Hl.
    destruct (find_replies_by_author d h y who) as [more| |] eqn:E;
      try discriminate.
    apply (IHl _ Hl). apply Forall_app. split; [|exact (IH y more E)].
    destruct (String.eqb (author (h y)) who) eqn:Ea; cbn [andb]; [|exact Hacc].
    destruct (is_deleted (h y)) eqn:Ed; cbn [negb]; [exact Hacc|].
    apply Forall_app. split; [exact Hacc|]. constructor; [|constructor].
    split; [apply String.eqb_eq; exact Ea|exact Ed]. }
apply (Hloop _ _ H). constructor.
Qed.

Lemma find_bound (d : nat) (h : heap) (x : nat) (who : String.string) (n : Z) :
  get_reply_count d h x = Done n ->
  exists found,
    find_replies_by_author d h x who = Done found /\
    Z.of_nat (length found) <= n.
Proof.
revert x n. induction d as [|d IH]; intros x n H; [discriminate|].
rewrite get_reply_count_S in H. rewrite find_replies_by_author_S.
assert (forall (l : list nat) (a : Z) (acc : list nat),
  sum_loop (get_reply_count d h) l a = Done n ->
  exists found,
    for_each
      (fun found_replies reply =>
         let found_replies' :=
           if String.eqb (author (h reply)) who && negb (is_deleted (h reply))
           then found_replies ++ [reply]
           else found_replies in
         match find_replies_by_author d h reply who with
         | Done more => Done (found_replies' ++ more)
         | TypeError => TypeError
         | RecursionError => RecursionError
         end) l acc = Done found /\
    Z.of_nat (length found) <=
      Z.of_nat (length acc) + (n - a) + Z.of_nat (length l)) as Hloop.
{ unfold sum_loop. induction l as [|y l IHl]; intros a acc Hs.
  - cbn [for_each] in *. injection Hs as <-. exists acc.
    split; [reflexivity|]. cbn [length]. lia.
  - cbn [for_each] in *.
    destruct (get_reply_count d h y) as [m| |] eqn:E; try discriminate.
    destruct (IH y m E) as (more & Em & Lm). rewrite Em.
    match goal with
    | |- context [for_each _ l ?acc'] =>
        destruct (IHl (a + m) acc' Hs) as (found & Ef & Lf)
    end.
    exists found. split; [exact Ef|].
    rewrite length_app in Lf. cbn [length].
    assert (Z.of_nat (length (if String.eqb (author (h y)) who
                                 && negb (is_deleted (h y))
                              then acc ++ [y] else acc))
            <= Z.of_nat (length acc) + 1) as Hc.
    { destruct (String.eqb (author (h y)) who && negb (is_deleted (h y)));
        [rewrite length_app; cbn [length]|]; lia. }
    lia. }
destruct (Hloop _ _ [] H) as (found & Ef & Lf).
exists found. split; [exact Ef|]. cbn [length] in Lf. lia.
Qed.

(** *** Adding a reply *)

Lemma get_reply_count_unreached (h : heap) (self : nat) (c : Comment)
  (d x : nat) :
  x <> self -> ~ below h x self ->
  get_reply_count d (set h self c) x = get_reply_count d h x.
Proof.
revert x. induction d as [|d IH]; intros x Hx Hb; [reflexivity|].
rewrite !get_reply_count_S, (set_neq _ _ _ _ Hx).
apply sum_loop_ext. intros y Hy. apply IH.
- intros ->. apply Hb. apply t_step. exact Hy.
- intros Hy'. apply Hb. eapply t_trans; [apply t_step; exact Hy|exact Hy'].
Qed.

Lemma sum_loop_app (f : nat -> outcome Z) (l1 l2 : list nat) (a : Z) :
  sum_loop f (l1 ++ l2) a =
  match sum_loop f l1 a with
  | Done a' => sum_loop f l2 a'
  | TypeError => TypeError
  | RecursionError => RecursionError
  end.
Proof. unfold sum_loop. apply for_each_app. Qed.


(** *** Properties of the comment hierarchy *)

(** X15. A comment that is among its own replies, directly or through
    replies of replies, makes [get_reply_count] on it exhaust every
    recursion depth: it never returns a number.  [add_reply] accepts such
    a reply. *)
Theorem X15_reply_cycle_never_counted (h : heap) (self depth : nat) :
  below h self self ->
  get_reply_count depth h self = RecursionError.
Proof. intros C. apply get_reply_count_cycle. exact C. Qed.

Lemma X15_reply_cycle_witness :
  exists h,
    add_reply blank 0 (Ref 0) = Done h /\
    below h 0 0 /\
    get_reply_count 50 h 0 = RecursionError.
Proof.
eexists. split; [reflexivity|].
match goal with |- below ?h 0 0 /\ _ =>
  assert (below h 0 0) as C by (apply t_step; left; reflexivity)
end.
split; [exact C|]. exact (X15_reply_cycle_never_counted _ 0 50%nat C).
Defined.

(** X16. [remove_reply] marks the comment deleted, replaces its text by
    the deletion notice and blanks its author, but keeps its replies and
    leaves every other comment alone: no reply count anywhere changes. *)
Theorem X16_remove_reply_keeps_replies (h : heap) (x : nat) :
  is_deleted (remove_reply h x x) = true /\
  text (remove_reply h x x) = deleted_text /\
  author (remove_reply h x x) = empty_string /\
  replies (remove_reply h x x) = replies (h x) /\
  (forall r, r <> x -> remove_reply h x r = h r) /\
  (forall depth self,
     get_reply_count depth (remove_reply h x) self =
     get_reply_count depth h self).
Proof.
unfold remove_reply at 1 2 3 4. rewrite !set_eq. cbn [is_deleted text author replies].
repeat split.
- intros r Hr. unfold remove_reply. apply set_neq. exact Hr.
- intros depth self. apply get_reply_count_ext. apply remove_reply_replies.
Qed.

(** X17. Every reference returned by [find_replies_by_author] denotes a
    comment by that author which is not deleted. *)
Theorem X17_found_replies_match (depth : nat) (h : heap) (self : nat)
  (who : String.string) (found : list nat) :
  find_replies_by_author depth h self who = Done found ->
  Forall (fun r => author (h r) = who /\ is_deleted (h r) = false) found.
Proof. apply find_sound. Qed.

(** X18. A removed comment is never returned by
    [find_replies_by_author], whichever author is asked for, the blank
    author it now carries included. *)
Theorem X18_removed_comment_not_found (depth : nat) (h : heap) (x self : nat)
  (who : String.string) (found : list nat) :
  find_replies_by_author depth (remove_reply h x) self who = Done found ->
  ~ In x found.
Proof.
intros H Hin. apply find_sound in H. rewrite Forall_forall in H.
destruct (H x Hin) as [_ Hd].
unfold remove_reply in Hd. rewrite set_eq in Hd. discriminate.
Qed.


(** X20. Whenever [get_reply_count] returns [n],
    [find_replies_by_author] under the same depth bound returns a list of
    at most [n] references. *)
Theorem X20_found_replies_at_most_count (depth : nat) (h : heap) (self : nat)
  (who : String.string) (n : Z) :
  get_reply_count depth h self = Done n ->
  exists found,
    find_replies_by_author depth h self who = Done found /\
    Z.of_nat (length found) <= n.
Proof. apply find_bound. Qed.

(** X21. Adding a reply that counts [k] replies of its own to a comment
    that counts [n] makes the comment count [n + 1 + k], provided the
    comment is neither the reply nor somewhere below it. *)
Theorem X21_add_reply_raises_count (depth : nat) (h : heap) (self r : nat)
  (n k : Z) :
  get_reply_count depth h self = Done n ->
  get_reply_count depth h r = Done k ->
  r <> self -> ~ below h r self ->
  exists h',
    add_reply h self (Ref r) = Done h' /\
    get_reply_count (S depth) h' self = Done (n + 1 + k).
Proof.
intros Hn Hk Hr Hb. eexists. split; [reflexivity|].
assert (~ below h self self) as Hacyc.
{ intros C. rewrite (get_reply_count_cycle h self depth C) in Hn. discriminate. }
destruct depth as [|d]; [discriminate|].
rewrite get_reply_count_S in Hn.
rewrite get_reply_count_S, set_eq. cbn [replies].
rewrite length_app, Nat2Z.inj_add. cbn [length].
rewrite sum_loop_app.
match goal with
| |- context [sum_loop ?f (replies (h self)) ?a] =>
    assert (sum_loop f (replies (h self)) a = Done (n + 1)) as E
end.
{ apply sum_loop_shift. eapply sum_loop_mono; [|exact Hn].
  intros y m Hy Ey. rewrite get_reply_count_unreached.
  - apply get_reply_count_more. exact Ey.
  - intros ->. apply Hacyc. apply t_step. exact Hy.
  - intros C. apply Hacyc. eapply t_trans; [apply t_step; exact Hy|exact C]. }
rewrite E. unfold sum_loop. cbn [for_each].
rewrite get_reply_count_unreached by assumption.
rewrite Hk. reflexivity.
Qed.

Lemma below_first_edge (h : heap) (x y : nat) :
  below h x y -> exists z, edge h x z.
Proof.
induction 1 as [x y E|x y z _ IH1 _ _]; [exists y; exact E|exact IH1].
Qed.

Lemma X17_found_replies_witness :
  find_replies_by_author 3 test_heap 0 nested_author = Done [2%nat] /\
  Forall (fun r => author (test_heap r) = nested_author /\
                   is_deleted (test_heap r) = false) [2%nat].
Proof.
assert (find_replies_by_author 3 test_heap 0 nested_author = Done [2%nat]) as H
  by (vm_compute; reflexivity).
split; [exact H|]. exact (X17_found_replies_match 3 test_heap 0 nested_author _ H).
Defined.

Lemma X18_removed_comment_witness :
  find_replies_by_author 3 (remove_reply test_heap 1) 0 nested_author
    = Done [2%nat] /\
  ~ In 1%nat [2%nat].
Proof.
assert (find_replies_by_author 3 (remove_reply test_heap 1) 0 nested_author
        = Done [2%nat]) as H by (vm_compute; reflexivity).
split; [exact H|].
exact (X18_removed_comment_not_found 3 test_heap 1 0 nested_author _ H).
Defined.


Lemma X20_found_replies_witness :
  get_reply_count 3 test_heap 0 = Done 2 /\
  exists found,
    find_replies_by_author 3 test_heap 0 reply_author = Done found /\
    Z.of_nat (length found) <= 2.
Proof.
assert (get_reply_count 3 test_heap 0 = Done 2) as H by (vm_compute; reflexivity).
split; [exact H|].
exact (X20_found_replies_at_most_count 3 test_heap 0 reply_author 2 H).
Defined.

Lemma X21_add_reply_witness :
  get_reply_count 3 test_heap 0 = Done 2 /\
  get_reply_count 3 test_heap 3 = Done 0 /\
  3%nat <> 0%nat /\ ~ below test_heap 3 0 /\
  exists h',
    add_reply test_heap 0 (Ref 3) = Done h' /\
    get_reply_count 4 h' 0 = Done (2 + 1 + 0).
Proof.
assert (get_reply_count 3 test_heap 0 = Done 2) as H0 by (vm_compute; reflexivity).
assert (get_reply_count 3 test_heap 3 = Done 0) as H3 by (vm_compute; reflexivity).
assert (3%nat <> 0%nat) as Hne by discriminate.
assert (~ below test_heap 3 0) as Hb.
{ intros C. destruct (below_first_edge _ _ _ C) as (z & E).
  vm_compute in E. exact E. }
split; [exact H0|]. split; [exact H3|]. split; [exact Hne|]. split; [exact Hb|].
exact (X21_add_reply_raises_count 3 test_heap 0 3 2 0 H0 H3 Hne Hb).
Defined.

(** The assertions of [test_comment_system]: the reply is seen deleted
    and with its nested reply through the comment that holds it. *)
Example test_comment_system_asserts :
  exists h,
    test_comment_system = Done h /\
    replies (h 0%nat) = [1%nat] /\
    is_deleted (h 1%nat) = true /\
    text (h 1%nat) = deleted_text /\
    get_reply_count 3 h 0 = Done 2.
Proof. eexists. split; [reflexivity|]. repeat split. Qed.
End CommentFacts.
